(** * LXMF / FastAPI bridge: a shallow embedding of [lxmfapi.py]

    The development follows the source file top to bottom:
    - [Codec]: the library calls the bridge makes on byte strings and text
      ([bytes.fromhex], [RNS.hexrep], [bytes.decode('utf-8')], [int(float)]);
    - [Bridge]: the class [LXMFAPI] ([_announce], [received],
      [_message_received], [send], one iteration of [process_queue]) and the
      HTTP handlers [send_message] and [get_status];
    - [Ws]: the callback closure built by [websocket_endpoint];
    - [Dispatch]: producers, blocked producers and the dispatcher thread
      interleaved over the bounded outbound queue;
    - [Server]: the whole process, with websocket connections that come and
      go, inbound deliveries and the loops that forward events to clients.

    State is passed explicitly.  Calls into the network stack and writes to
    the announce file are appended to a trace, latest last, so that their
    order can be stated. *)

From Stdlib Require Import QArith Ascii.
From stdpp Require Import base option list gmap strings.
From Stdlib.Strings Require Import Byte.

Close Scope Q_scope.
Set Warnings "-clear-no-such-hyp".
Local Open Scope string_scope.
Local Open Scope list_scope.
Local Open Scope Z_scope.

(** Python [bytes]. *)
Abbreviation bytes := (list byte).

(* ===================================================================== *)
(** ** Library functions on bytes and text *)
(* ===================================================================== *)

Module Codec.

(** One lowercase hexadecimal digit, as ["{:02x}".format] prints it. *)
Definition hex_digit (n : N) : ascii :=
  ascii_of_N (if (n <? 10)%N then 48 + n else 87 + n)%N.

Definition hexrep_byte (c : byte) : string :=
  let n := Byte.to_N c in
  String (hex_digit (n / 16)%N) (String (hex_digit (n mod 16)%N) EmptyString).

(** [RNS.hexrep(data, delimit=False)]: two lowercase digits for each byte,
    joined by the empty delimiter. *)
Fixpoint hexrep (data : bytes) : string :=
  match data with
  | [] => EmptyString
  | c :: rest => hexrep_byte c +:+ hexrep rest
  end.

(** Value of a hexadecimal digit, either case; [None] for any other
    character. *)
Definition digit_value (c : ascii) : option N :=
  let n := N_of_ascii c in
  if ((48 <=? n) && (n <=? 57))%N then Some (n - 48)%N
  else if ((97 <=? n) && (n <=? 102))%N then Some (n - 87)%N
  else if ((65 <=? n) && (n <=? 70))%N then Some (n - 55)%N
  else None.

(** ASCII white space, which [bytes.fromhex] skips between bytes. *)
Definition is_space (c : ascii) : bool :=
  let n := N_of_ascii c in
  ((n =? 32) || ((9 <=? n) && (n <=? 13)))%N.

(** [bytes.fromhex(s)]: [None] stands for the [ValueError] raised on a
    character that is not a hexadecimal digit or on a byte with a single
    digit.  White space is allowed before a byte, not inside one. *)
Fixpoint fromhex (s : string) : option bytes :=
  match s with
  | EmptyString => Some []
  | String c r =>
      if is_space c then fromhex r
      else
        match digit_value c, r with
        | Some top, String c' r' =>
            match digit_value c' with
            | Some bot =>
                cons (byte_of_ascii (ascii_of_N (16 * top + bot)%N))
                  <$> fromhex r'
            | None => None
            end
        | _, _ => None
        end
  end.

(** Continuation byte [10xxxxxx]. *)
Definition is_cont (b : N) : bool := ((128 <=? b) && (b <=? 191))%N.

Definition between (lo b hi : N) : bool := ((lo <=? b) && (b <=? hi))%N.

(** Well-formed UTF-8, as the strict decoder accepts it: shortest form
    only, no surrogates, nothing above U+10FFFF. *)
Fixpoint utf8_valid (bs : list N) : bool :=
  match bs with
  | [] => true
  | b0 :: r =>
      if (b0 <=? 127)%N then utf8_valid r
      else if between 194 b0 223 then
        match r with
        | b1 :: r' => is_cont b1 && utf8_valid r'
        | _ => false
        end
      else if between 224 b0 239 then
        match r with
        | b1 :: b2 :: r' =>
            (if (b0 =? 224)%N then between 160 b1 191
             else if (b0 =? 237)%N then between 128 b1 159
             else is_cont b1)
            && is_cont b2 && utf8_valid r'
        | _ => false
        end
      else if between 240 b0 244 then
        match r with
        | b1 :: b2 :: b3 :: r' =>
            (if (b0 =? 240)%N then between 144 b1 191
             else if (b0 =? 244)%N then between 128 b1 143
             else is_cont b1)
            && is_cont b2 && is_cont b3 && utf8_valid r'
        | _ => false
        end
      else false
  end.

(** [content.decode('utf-8')].  Text is kept in its UTF-8 form, so decoding
    a well-formed byte string returns the same octets as a [string];
    [None] stands for [UnicodeDecodeError]. *)
Definition decode_utf8 (content : bytes) : option string :=
  if utf8_valid (Byte.to_N <$> content)
  then Some (String.string_of_list_byte content)
  else None.

(** [text.encode('utf-8')].  Python text is kept in its UTF-8 form, with
    a lone surrogate, which Python text can hold, in the three octets the
    [surrogatepass] handler gives it; these are not well-formed UTF-8.
    Encoding well-formed text returns the same octets; [None] stands for
    the [UnicodeEncodeError] raised on a surrogate. *)
Definition encode_utf8 (text : string) : option string :=
  if utf8_valid (Byte.to_N <$> String.list_byte_of_string text)
  then Some text
  else None.

(** [int(x)] of a float [x]: truncation toward zero.  The clock value is
    an exact rational; the bridge does no float arithmetic on it. *)
Definition int_of_float (x : Q) : Z := Z.quot (Qnum x) (Z.pos (Qden x)).

End Codec.

Import Codec.

(* ===================================================================== *)
(** ** The bridge: class [LXMFAPI] and the HTTP handlers *)
(* ===================================================================== *)

Module Bridge.

(** Exceptions that can leave the code modelled here. *)
Inductive Exn :=
| UnicodeDecodeError
| UnicodeEncodeError
| CallbackError (what : string).

Inductive LogLevel := LOG_ERROR | LOG_INFO | LOG_VERBOSE | LOG_DEBUG.

Inductive Method := OPPORTUNISTIC | DIRECT | PROPAGATED.

(** [RNS.Destination.IN], [OUT] and the destination types. *)
Inductive Direction := IN | OUT.

Inductive DestinationType := SINGLE | GROUP | PLAIN | LINK.

(** A message handed over by the router's delivery callback; the handler
    reads these three attributes. *)
Record LXMessageIn := {
  source_hash : bytes;
  hash : bytes;
  content : bytes
}.

(** The [SimpleNamespace] built for every callback.  The closure [reply]
    captures [sender] only, and is kept as the address it replies to. *)
Record Msg := {
  msg_lxmf : LXMessageIn;
  msg_reply : string;
  msg_sender : string;
  msg_content : string;
  msg_hash : string
}.

(** [Queue(maxsize = 5)]. *)
Definition maxsize : nat := 5.

Section WithStack.

(** What the network stack supplies. *)
Context {Identity : Type}.
(** [RNS.Reticulum.TRUNCATED_HASHLENGTH], in bits. *)
Variable TRUNCATED_HASHLENGTH : Z.
(** [RNS.Identity.recall]. *)
Variable recall : bytes -> option Identity.
(** Whatever the registered callbacks act upon. *)
Context {World : Type}.

(** [RNS.Destination(identity, direction, type, app_name, *aspects)].  The
    destination is made from the recalled identity and the names; the
    address that was asked for is not passed to it. *)
Record Destination := {
  dest_identity : Identity;
  dest_direction : Direction;
  dest_type : DestinationType;
  dest_app_name : string;
  dest_aspects : list string
}.

(** The outbound [LXMessage] built by [send]; title and content are held
    as encoded by the constructor. *)
Record LXMessage := {
  lxm_destination : Destination;
  lxm_source : bytes;
  lxm_content : string;
  lxm_title : string;
  lxm_desired_method : Method;
  lxm_try_propagation_on_fail : bool
}.

(** The calls the bridge makes on its collaborators, in the order they
    complete: the write to the announce file, [self.local.announce()],
    [self.queue.put(lxm)], [self.router.handle_outbound(lxm)] and
    [RNS.Transport.request_path(hash)]. *)
Inductive Call :=
| WriteAnnounce (next_announce : Z)
| Announce
| Put (lxm : LXMessage)
| HandleOutbound (lxm : LXMessage)
| RequestPath (hash : bytes).

(** A registered function object: called with the namespace, it acts on
    the world and returns, or raises. *)
Definition Callback : Type := Msg -> World -> World * option Exn.

(** The attributes of [LXMFAPI] ([delivery_callbacks], [receipts], [queue],
    [announce_time], [local]) together with what the object reaches
    through them: the content of the file [config/announce] (written with
    [str], read back with [int]), the calls made so far and the log. *)
Record LXMFAPI := {
  delivery_callbacks : list Callback;
  receipts : list string;
  queue : list LXMessage;
  announce_time : Z;
  local : bytes;
  announce_file : option Z;
  trace : list Call;
  log : list (LogLevel * string)
}.

Definition set_delivery_callbacks (v : list Callback) (s : LXMFAPI) : LXMFAPI :=
  {| delivery_callbacks := v; receipts := receipts s; queue := queue s;
     announce_time := announce_time s; local := local s;
     announce_file := announce_file s; trace := trace s; log := log s |}.

Definition set_receipts (v : list string) (s : LXMFAPI) : LXMFAPI :=
  {| delivery_callbacks := delivery_callbacks s; receipts := v; queue := queue s;
     announce_time := announce_time s; local := local s;
     announce_file := announce_file s; trace := trace s; log := log s |}.

Definition set_queue (v : list LXMessage) (s : LXMFAPI) : LXMFAPI :=
  {| delivery_callbacks := delivery_callbacks s; receipts := receipts s; queue := v;
     announce_time := announce_time s; local := local s;
     announce_file := announce_file s; trace := trace s; log := log s |}.

Definition set_announce_file (v : option Z) (s : LXMFAPI) : LXMFAPI :=
  {| delivery_callbacks := delivery_callbacks s; receipts := receipts s; queue := queue s;
     announce_time := announce_time s; local := local s;
     announce_file := v; trace := trace s; log := log s |}.

(** One more call at the end of the trace. *)
Definition call (c : Call) (s : LXMFAPI) : LXMFAPI :=
  {| delivery_callbacks := delivery_callbacks s; receipts := receipts s; queue := queue s;
     announce_time := announce_time s; local := local s;
     announce_file := announce_file s; trace := trace s ++ [c]; log := log s |}.

(** [RNS.log(text, level)]. *)
Definition RNS_log (text : string) (level : LogLevel) (s : LXMFAPI) : LXMFAPI :=
  {| delivery_callbacks := delivery_callbacks s; receipts := receipts s; queue := queue s;
     announce_time := announce_time s; local := local s;
     announce_file := announce_file s; trace := trace s; log := log s ++ [(level, text)] |}.

(** The class attributes and what [__init__] leaves before its first
    [_announce]: no callbacks, no receipts, an empty queue, an interval of
    600 seconds (the constructor's [announce] argument is never stored),
    and the announce file removed when [announce_immediately] is set. *)
Definition __init__ (local_hash : bytes) (file : option Z)
    (announce_immediately : bool) : LXMFAPI :=
  {| delivery_callbacks := []; receipts := []; queue := [];
     announce_time := 600; local := local_hash;
     announce_file := if announce_immediately then None else file;
     trace := []; log := [] |}.

(** [_announce].  The clock is read twice, once for the comparison and
    once for the new deadline.  The file is closed, hence written, when the
    [with] block ends, before [self.local.announce()]. *)
Definition _announce (now_check now_write : Q) (s : LXMFAPI) : LXMFAPI :=
  let announce := default 1 (announce_file s) in
  if int_of_float now_check <? announce then
    RNS_log "Recent announcement" LOG_DEBUG s
  else
    let next_announce := int_of_float now_write + announce_time s in
    let s := call (WriteAnnounce next_announce)
               (set_announce_file (Some next_announce) s) in
    let s := call Announce s in
    RNS_log "Announcement sent, expr set 1800 seconds" LOG_INFO s.

(** [received]: the decorator appends the function to the list. *)
Definition received (function : Callback) (s : LXMFAPI) : LXMFAPI :=
  set_delivery_callbacks (delivery_callbacks s ++ [function]) s.

(** The [for] loop of [_message_received]: the namespace is rebuilt, and
    the content decoded, for each callback; an exception raised by the
    decoding or by a callback ends the loop and leaves the function. *)
Fixpoint for_callback (message : LXMessageIn) (sender receipt : string)
    (callbacks : list Callback) (w : World) : World * option Exn :=
  match callbacks with
  | [] => (w, None)
  | callback :: rest =>
      match decode_utf8 (content message) with
      | None => (w, Some UnicodeDecodeError)
      | Some text =>
          let msg := {| msg_lxmf := message; msg_reply := sender;
                        msg_sender := sender; msg_content := text;
                        msg_hash := receipt |} in
          match callback msg w with
          | (w', None) => for_callback message sender receipt rest w'
          | (w', Some e) => (w', Some e)
          end
      end
  end.

(** [self.receipts.append(receipt)] followed by the bounded
    [self.receipts.pop(0)]. *)
Definition append_receipt (receipt : string) (rs : list string) : list string :=
  let rs := rs ++ [receipt] in
  if (100 <? length rs)%nat then drop 1 rs else rs.

(** [_message_received]: returns the object, the world the callbacks left
    and the exception that left the handler, if any. *)
Definition _message_received (message : LXMessageIn) (s : LXMFAPI) (w : World)
    : LXMFAPI * World * option Exn :=
  let sender := hexrep (source_hash message) in
  let receipt := hexrep (hash message) in
  let s := RNS_log ("Message receipt <" +:+ receipt +:+ ">") LOG_INFO s in
  if bool_decide (receipt ∈ receipts s) then (s, w, None)
  else
    let s := set_receipts (append_receipt receipt (receipts s)) s in
    let '(w', e) := for_callback message sender receipt (delivery_callbacks s) w in
    (s, w', e).

(** How a call that may block on the queue ends. *)
Inductive Completion :=
| Returned
| Raised (e : Exn)
| Blocked (lxm : LXMessage).

(** [self.queue.put(lxm)] on a queue of [maxsize]: the item goes to the
    back, or the caller waits for room holding it. *)
Definition put (lxm : LXMessage) (s : LXMFAPI) : LXMFAPI * Completion :=
  if (length (queue s) <? maxsize)%nat
  then (call (Put lxm) (set_queue (queue s ++ [lxm]) s), Returned)
  else (s, Blocked lxm).

(** [send].  The constructor of [LXMessage] encodes the title, then the
    content; it is called outside the [try], so that its
    [UnicodeEncodeError] leaves [send], before anything is put. *)
Definition send (destination message title : string) (s : LXMFAPI)
    : LXMFAPI * Completion :=
  match fromhex destination with
  | None => (RNS_log "Invalid destination hash" LOG_ERROR s, Returned)
  | Some hash =>
      if negb (Z.of_nat (length hash) =? TRUNCATED_HASHLENGTH / 8) then
        (RNS_log "Invalid destination hash length" LOG_ERROR s, Returned)
      else
        match recall hash with
        | None =>
            let s := RNS_log "Could not recall an Identity for the requested address. You have probably never received an announce from it. Try requesting a path from the network first. In fact, let's do this now :)" LOG_ERROR s in
            let s := call (RequestPath hash) s in
            (RNS_log "OK, a path was requested. If the network knows a path, you will receive an announce with the Identity data shortly." LOG_INFO s, Returned)
        | Some id =>
            let lxmf_destination :=
              {| dest_identity := id; dest_direction := OUT;
                 dest_type := SINGLE; dest_app_name := "lxmf";
                 dest_aspects := ["delivery"] |} in
            match encode_utf8 title, encode_utf8 message with
            | Some title_octets, Some content_octets =>
                let lxm :=
                  {| lxm_destination := lxmf_destination; lxm_source := local s;
                     lxm_content := content_octets; lxm_title := title_octets;
                     lxm_desired_method := DIRECT;
                     lxm_try_propagation_on_fail := true |} in
                put lxm s
            | _, _ => (s, Raised UnicodeEncodeError)
            end
        end
  end.

(** One iteration of the loop of [process_queue], up to its [sleep]. *)
Definition process_queue (now_check now_write : Q) (s : LXMFAPI) : LXMFAPI :=
  let s :=
    match queue s with
    | [] => s
    | lxm :: rest => call (HandleOutbound lxm) (set_queue rest s)
    end in
  _announce now_check now_write s.

(** The body of [POST /send]. *)
Record MessageRequest := {
  destination : string;
  message : string;
  title : string
}.

Record Response := {
  status_code : Z;
  detail : string
}.

(** [send_message]: 200 with the status text when [api.send] returns, 400
    when it raises, the detail being the exception's text, kept here as the
    name of the exception; no response while the call waits on the queue. *)
Definition send_message (message_request : MessageRequest) (s : LXMFAPI)
    : LXMFAPI * option Response :=
  match send (destination message_request) (message message_request)
             (title message_request) s with
  | (s', Returned) =>
      (s', Some {| status_code := 200; detail := "message queued" |})
  | (s', Raised e) =>
      (s', Some {| status_code := 400;
                   detail := match e with
                             | UnicodeDecodeError => "UnicodeDecodeError"
                             | UnicodeEncodeError => "UnicodeEncodeError"
                             | CallbackError what => what
                             end |})
  | (s', Blocked _) => (s', None)
  end.

(** [get_status]. *)
Definition get_status (s : LXMFAPI) : nat * nat * string :=
  (length (queue s), length (receipts s), "<" +:+ hexrep (local s) +:+ ">").

End WithStack.

End Bridge.

Import Bridge.

(* ===================================================================== *)
(** ** The callback of [websocket_endpoint] *)
(* ===================================================================== *)

Module Ws.

(** The dictionary put on a connection's [message_queue]. *)
Record Event := {
  ev_sender : string;
  ev_content : string;
  ev_hash : string
}.

(** The world of the websocket callbacks: the [message_queue] of every
    connection, oldest event first. *)
Abbreviation Queues := (gmap nat (list Event)).

(** [message_callback] of connection [ws]: the event is scheduled on the
    server's event loop and lands on the connection's unbounded queue. *)
Definition message_callback (ws : nat) : Callback (World := Queues) :=
  fun msg w =>
    let event := {| ev_sender := msg_sender msg;
                    ev_content := msg_content msg;
                    ev_hash := msg_hash msg |} in
    (<[ws := default [] (w !! ws) ++ [event]]> w, None).

(** [websocket_endpoint] up to its loop: a new queue, and its callback
    registered.  Returns the connection as well. *)
Definition websocket_endpoint {Identity : Type}
    (s : LXMFAPI (Identity := Identity)) (w : Queues)
    : LXMFAPI (Identity := Identity) * Queues * nat :=
  let ws := fresh (dom w) in
  (received (message_callback ws) s, <[ws := []]> w, ws).

End Ws.

(* ===================================================================== *)
(** ** Producers and the dispatcher over the bounded queue *)
(* ===================================================================== *)

Module Dispatch.

Section WithStack.

Context {Identity : Type}.
Variable TRUNCATED_HASHLENGTH : Z.
Variable recall : bytes -> option Identity.
Context {World : Type}.

Abbreviation API := (LXMFAPI (Identity := Identity) (World := World)).
Abbreviation Item := (LXMessage (Identity := Identity)).

(** The object, and the producers that wait inside [put], each with the
    item it holds. *)
Record System := {
  api : API;
  waiting : list Item
}.

(** What the threads do, one event at a time: a producer calls [send]; the
    [i]-th waiting producer is woken and tries its [put] again; the
    dispatcher runs one iteration of [process_queue]. *)
Inductive Event :=
| Send (destination message title : string)
| Wake (i : nat)
| Tick (now_check now_write : Q).

Definition step (sys : System) (ev : Event) : System :=
  match ev with
  | Send d m t =>
      match send TRUNCATED_HASHLENGTH recall d m t (api sys) with
      | (s', Blocked lxm) => {| api := s'; waiting := waiting sys ++ [lxm] |}
      | (s', _) => {| api := s'; waiting := waiting sys |}
      end
  | Wake i =>
      match waiting sys !! i with
      | None => sys
      | Some lxm =>
          match put lxm (api sys) with
          | (s', Returned) => {| api := s'; waiting := delete i (waiting sys) |}
          | (_, _) => sys
          end
      end
  | Tick now_check now_write =>
      {| api := process_queue now_check now_write (api sys);
         waiting := waiting sys |}
  end.

Definition run (sys : System) (evs : list Event) : System := foldl step sys evs.

(** The object as [__init__] leaves it, its first [_announce] included, with
    no producer waiting. *)
Definition boot (local_hash : bytes) (file : option Z)
    (announce_immediately : bool) (now_check now_write : Q) : System :=
  {| api := _announce now_check now_write
              (__init__ local_hash file announce_immediately);
     waiting := [] |}.

(** Items handed to [handle_outbound], and items whose [put] completed, in
    the order of the trace. *)
Definition handed (tr : list (Call (Identity := Identity))) : list Item :=
  omap (fun c => match c with HandleOutbound lxm => Some lxm | _ => None end) tr.

Definition puts (tr : list (Call (Identity := Identity))) : list Item :=
  omap (fun c => match c with Put lxm => Some lxm | _ => None end) tr.

(** The item a call of [send] takes to the queue, when the destination
    parses, has the right length and is known, and title and content can be
    encoded. *)
Definition built (local_hash : bytes) (ev : Event) : option Item :=
  match ev with
  | Send d m t =>
      hash ← fromhex d;
      guard (Z.of_nat (length hash) = TRUNCATED_HASHLENGTH / 8);;
      id ← recall hash;
      title_octets ← encode_utf8 t;
      content_octets ← encode_utf8 m;
      Some {| lxm_destination :=
                {| dest_identity := id; dest_direction := OUT;
                   dest_type := SINGLE; dest_app_name := "lxmf";
                   dest_aspects := ["delivery"] |};
              lxm_source := local_hash; lxm_content := content_octets;
              lxm_title := title_octets; lxm_desired_method := DIRECT;
              lxm_try_propagation_on_fail := true |}
  | _ => None
  end.

(** The invariant of every execution: the queue holds at most [maxsize]
    items; the items handed to the router followed by those in the queue
    are the items put, in the order they were put; every item a producer
    brought is either put or still in the hands of a waiting producer. *)
Definition outbound_invariant (local_hash : bytes) (brought : list Item)
    (sys : System) : Prop :=
  local (api sys) = local_hash
  /\ (length (queue (api sys)) <= maxsize)%nat
  /\ handed (trace (api sys)) ++ queue (api sys) = puts (trace (api sys))
  /\ puts (trace (api sys)) ++ waiting sys ≡ₚ brought.

End WithStack.

End Dispatch.

(* ===================================================================== *)
(** ** Executions used in the statements *)
(* ===================================================================== *)

(** Number of [self.local.announce()] calls in a trace. *)
Definition announces {Identity : Type} (tr : list (Call (Identity := Identity))) : nat :=
  length (omap (fun c => match c with Announce => Some tt | _ => None end) tr).

(** The object right after construction, for a stack with 128-bit
    truncated hashes that knows no identity. *)
Definition fresh_api : LXMFAPI (Identity := unit) (World := unit) :=
  __init__ [x01; x02] None false.

Definition no_identity : bytes -> option unit := fun _ => None.

(** The line [_message_received] logs for a message. *)
Definition receipt_log (message : LXMessageIn) : string :=
  "Message receipt <" +:+ hexrep (hash message) +:+ ">".

(** The namespace [_message_received] builds for a message whose content
    decodes to [text]. *)
Definition namespace (message : LXMessageIn) (text : string) : Msg :=
  {| msg_lxmf := message;
     msg_reply := hexrep (source_hash message);
     msg_sender := hexrep (source_hash message);
     msg_content := text;
     msg_hash := hexrep (hash message) |}.

(** Calling the functions of a list in order on one namespace, up to the
    first that raises. *)
Fixpoint call_all {World : Type} (msg : Msg)
    (callbacks : list (Callback (World := World))) (w : World) : World * option Exn :=
  match callbacks with
  | [] => (w, None)
  | callback :: rest =>
      match callback msg w with
      | (w', None) => call_all msg rest w'
      | (w', Some e) => (w', Some e)
      end
  end.

(** The router delivering a list of messages, one call of
    [_message_received] each; an exception out of one call does not undo
    what the call did. *)
Definition deliver_all {Identity World : Type} (messages : list LXMessageIn)
    (s : LXMFAPI (Identity := Identity) (World := World)) (w : World)
    : LXMFAPI (Identity := Identity) (World := World) * World :=
  foldl (fun sw m => let '(s', w', _) := _message_received m sw.1 sw.2 in (s', w'))
        (s, w) messages.

(** The receipt list after a series of receipt ids went through lines
    84 to 87. *)
Definition seen_after (ids : list string) (rs : list string) : list string :=
  foldl (fun rs id => if bool_decide (id ∈ rs) then rs else append_receipt id rs)
        rs ids.

(** Number of distinct ids of a list other than [r]. *)
Definition distinct_others (r : string) (ids : list string) : nat :=
  length (remove_dups (filter (fun x => x ≠ r) ids)).

(** A registered function that raises on every message. *)
Definition raising_callback : Callback (World := Ws.Queues) :=
  fun _ w => (w, Some (CallbackError "boom")).

(** An object with no receipts and the given functions registered in
    order. *)
Definition api_with (callbacks : list (Callback (World := Ws.Queues)))
    : LXMFAPI (Identity := unit) (World := Ws.Queues) :=
  foldl (fun s f => received f s) (__init__ [x01; x02] None false) callbacks.

(** An inbound message with text content, and one whose content is not
    UTF-8. *)
Definition hello : LXMessageIn :=
  {| source_hash := [xaa; xbb]; hash := [x10; x20]; content := [x68; x69] |}.

Definition garbled : LXMessageIn :=
  {| source_hash := [xaa; xbb]; hash := [x10; x21]; content := [xff] |}.

(** One open websocket connection, number 0, with nothing on its queue. *)
Definition one_connection : Ws.Queues := {[ 0%nat := [] ]}.

(** Two open websocket connections, 0 and 1. *)
Definition two_connections : Ws.Queues := <[ 1%nat := [] ]> one_connection.

(** The event a websocket subscriber should see for [hello]. *)
Definition hello_event : Ws.Event :=
  {| Ws.ev_sender := "aabb"; Ws.ev_content := "hi"; Ws.ev_hash := "1020" |}.

(** The inbound message whose hash is the single byte [i], and a hundred
    of them, with the hashes 0 to 99. *)
Definition numbered (i : nat) : LXMessageIn :=
  {| source_hash := [xaa; xbb];
     hash := [default x00 (Byte.of_N (N.of_nat i))];
     content := [x68; x69] |}.

Definition hundred_messages : list LXMessageIn := numbered <$> seq 0 100.

(** A stack that knows an identity for every address, a well-formed
    address, and producers sending the texts "1" to "6" to it. *)
Definition every_identity : bytes -> option unit := fun _ => Some tt.

Definition an_address : string := "00112233445566778899aabbccddeeff".

Definition sends (texts : list string) : list Dispatch.Event :=
  (fun text => Dispatch.Send an_address text "Reply") <$> texts.

Definition booted : Dispatch.System (Identity := unit) (World := unit) :=
  Dispatch.boot [x01; x02] None false (6800000003 # 4)%Q (6800000003 # 4)%Q.

(** Calls of [_announce] one after the other, each with its two readings of
    the clock. *)
Definition announce_all {Identity World : Type} (calls : list (Q * Q))
    (s : LXMFAPI (Identity := Identity) (World := World))
    : LXMFAPI (Identity := Identity) (World := World) :=
  foldl (fun s p => _announce p.1 p.2 s) s calls.

(* ===================================================================== *)
(** ** The rest of the source: [reply], the websocket loop, the server *)
(* ===================================================================== *)

(** The closure [reply] built by [_message_received]: [self.send(sender,
    msg)], with the default title of [send]. *)
Definition reply {Identity World : Type} (TRUNCATED_HASHLENGTH : Z)
    (recall : bytes -> option Identity) (msg : Msg) (text : string)
    (s : LXMFAPI (Identity := Identity) (World := World))
    : LXMFAPI (Identity := Identity) (World := World) * Completion :=
  send TRUNCATED_HASHLENGTH recall (msg_reply msg) text "Reply" s.


(** The deadlines written to the announce file, in the order of the
    trace. *)
Definition written {Identity : Type} (tr : list (Call (Identity := Identity)))
    : list Z :=
  omap (fun c => match c with WriteAnnounce d => Some d | _ => None end) tr.

(** The trace restricted to the two calls of [_announce]: [Some d] for the
    write of deadline [d], [None] for the announce. *)
Definition announce_calls {Identity : Type}
    (tr : list (Call (Identity := Identity))) : list (option Z) :=
  omap (fun c => match c with
                 | WriteAnnounce d => Some (Some d)
                 | Announce => Some None
                 | _ => None
                 end) tr.

(** The calls of [_announce] in a trace come in pairs, the write first. *)
Definition paired {Identity : Type} (tr : list (Call (Identity := Identity)))
    : Prop :=
  announce_calls tr = flat_map (fun d => [Some d; None]) (written tr).

(** Neighbours in the list are at least [gap] apart, in increasing order. *)
Fixpoint separated (gap : Z) (ds : list Z) : Prop :=
  match ds with
  | d :: rest =>
      match rest with
      | d' :: _ => d + gap <= d' /\ separated gap rest
      | [] => True
      end
  | [] => True
  end.

(** The clock does not run backwards between the two readings of one
    iteration of the dispatcher. *)
Definition clock_forward (ev : Dispatch.Event) : Prop :=
  match ev with
  | Dispatch.Tick now_check now_write =>
      int_of_float now_check <= int_of_float now_write
  | _ => True
  end.

(** What ties the announce file to the trace: the interval is 600, the
    deadline the file held at construction followed by the deadlines written
    since are at least 600 apart, and the file holds the last of them. *)
Definition deadlines_kept {Identity World : Type} (file0 : option Z)
    (s : LXMFAPI (Identity := Identity) (World := World)) : Prop :=
  announce_time s = 600
  /\ separated 600 (option_list file0 ++ written (trace s))
  /\ announce_file s = last (option_list file0 ++ written (trace s)).

Module Server.

Section WithStack.

Context {Identity : Type}.
Variable TRUNCATED_HASHLENGTH : Z.
Variable recall : bytes -> option Identity.

(** How one iteration of the loop of [websocket_endpoint] ends: the event
    taken from the queue was sent; [wait_for] timed out on an empty queue
    and the loop goes round; [send_json] raised and the loop was left with
    [break]. *)
Inductive Iteration :=
| Sent (message : Ws.Event)
| TimedOut
| Broke.

(** One iteration of the loop for connection [ws].  [client_there] says
    whether [send_json] succeeds; it is called only once an event has been
    taken from the queue, so that a client that went away is noticed at the
    next event, which is lost. *)
Definition websocket_loop (ws : nat) (client_there : bool) (w : Ws.Queues)
    : Ws.Queues * Iteration :=
  match w !! ws with
  | Some (message :: rest) =>
      (<[ws := rest]> w, if client_there then Sent message else Broke)
  | _ => (w, TimedOut)
  end.

(** The process: the object with its waiting producers, the queues of the
    websocket connections, the connections whose handler is running, in the
    order they registered their callbacks, and the dictionaries sent to the
    clients, each with its connection. *)
Record State := {
  system : Dispatch.System (Identity := Identity) (World := Ws.Queues);
  queues : Ws.Queues;
  opened : list nat;
  sent : list (nat * Ws.Event)
}.

(** A client connects; the router delivers a message; a producer or the
    dispatcher moves; the loop of a connection goes round once, with the
    client there or gone. *)
Inductive Event :=
| Connect
| Inbound (message : LXMessageIn)
| Outbound (ev : Dispatch.Event)
| Forward (ws : nat) (client_there : bool).

(** The [finally] of [websocket_endpoint]:
    [api.delivery_callbacks.remove(message_callback)].  A closure is equal
    to itself only, and the closure of connection [ws] stands in the list
    where [ws] stands among the running connections; it is removed
    there. *)
Definition finally_remove (ws : nat) (st : State) : State :=
  match list_find (fun k => k = ws) (opened st) with
  | Some (i, _) =>
      let s := Dispatch.api (system st) in
      {| system :=
           {| Dispatch.api :=
                set_delivery_callbacks (delete i (delivery_callbacks s)) s;
              Dispatch.waiting := Dispatch.waiting (system st) |};
         queues := queues st; opened := delete i (opened st);
         sent := sent st |}
  | None => st
  end.

Definition step (st : State) (ev : Event) : State :=
  match ev with
  | Connect =>
      let '(s', w', ws) :=
        Ws.websocket_endpoint (Dispatch.api (system st)) (queues st) in
      {| system := {| Dispatch.api := s';
                      Dispatch.waiting := Dispatch.waiting (system st) |};
         queues := w'; opened := opened st ++ [ws]; sent := sent st |}
  | Inbound message =>
      let '(s', w', _) :=
        _message_received message (Dispatch.api (system st)) (queues st) in
      {| system := {| Dispatch.api := s';
                      Dispatch.waiting := Dispatch.waiting (system st) |};
         queues := w'; opened := opened st; sent := sent st |}
  | Outbound ev =>
      {| system := Dispatch.step TRUNCATED_HASHLENGTH recall (system st) ev;
         queues := queues st; opened := opened st; sent := sent st |}
  | Forward ws client_there =>
      if decide (ws ∈ opened st) then
        match websocket_loop ws client_there (queues st) with
        | (w', Sent message) =>
            {| system := system st; queues := w'; opened := opened st;
               sent := sent st ++ [(ws, message)] |}
        | (w', TimedOut) =>
            {| system := system st; queues := w'; opened := opened st;
               sent := sent st |}
        | (w', Broke) =>
            finally_remove ws
              {| system := system st; queues := w'; opened := opened st;
                 sent := sent st |}
        end
      else st
  end.

Definition run (st : State) (evs : list Event) : State := foldl step st evs.

(** The process after [__init__], with no connection. *)
Definition boot (local_hash : bytes) (file : option Z)
    (announce_immediately : bool) (now_check now_write : Q) : State :=
  {| system := Dispatch.boot local_hash file announce_immediately
                 now_check now_write;
     queues := ∅; opened := []; sent := [] |}.


(** What has been sent to the client of connection [ws], in order. *)
Definition sent_to (ws : nat) (st : State) : list Ws.Event :=
  omap (fun p => if decide (p.1 = ws) then Some p.2 else None) (sent st).

(** What waits on the queue of connection [ws]. *)
Definition queued_for (ws : nat) (st : State) : list Ws.Event :=
  default [] (queues st !! ws).


End WithStack.

End Server.

(** Text that holds the lone surrogate U+D800, in the three octets it has
    in the UTF-8 form of Python text. *)
Definition lone_surrogate : string :=
  String (ascii_of_N 237) (String (ascii_of_N 160) (String (ascii_of_N 128)
    EmptyString)).

(** An inbound message from a sender with a 16-byte address. *)
Definition from_peer : LXMessageIn :=
  {| source_hash := [x00; x11; x22; x33; x44; x55; x66; x77;
                     x88; x99; xaa; xbb; xcc; xdd; xee; xff];
     hash := [x10; x20]; content := [x68; x69] |}.

(** A process with two connections opened after boot. *)
Definition two_clients : Server.State (Identity := unit) :=
  Server.run 128 every_identity
    (Server.boot [x01; x02] None false (6800000003 # 4)%Q (6800000003 # 4)%Q)
    [Server.Connect; Server.Connect].

(** What connection [ws] has been given so far: what was sent to its client
    followed by what still waits on its queue. *)
Definition stream {Identity : Type} (ws : nat)
    (st : Server.State (Identity := Identity)) : list Ws.Event :=
  Server.sent_to ws st ++ Server.queued_for ws st.

(** What every state of the process satisfies: the registered functions
    are the callbacks of the running connections, in order; no connection
    is there twice and each has a queue; the receipt list has no
    repeated entry and at most 100 entries; the outbound queue satisfies
    [Dispatch.outbound_invariant]. *)
Definition server_invariant {Identity : Type} (local_hash : bytes)
    (st : Server.State (Identity := Identity)) : Prop :=
  let s := Dispatch.api (Server.system st) in
  delivery_callbacks s = Ws.message_callback <$> Server.opened st
  /\ NoDup (Server.opened st)
  /\ (forall ws, ws ∈ Server.opened st -> is_Some (Server.queues st !! ws))
  /\ NoDup (receipts s)
  /\ (length (receipts s) <= 100)%nat
  /\ exists brought, Dispatch.outbound_invariant local_hash brought (Server.system st).

(* ===================================================================== *)
(** * Properties *)
(* ===================================================================== *)

(** ** The library functions on small inputs *)

Example hexrep_ex : hexrep [x00; xab; xff] = "00abff".
Proof. reflexivity. Qed.

Example fromhex_ex : fromhex "00 AbfF" = Some [x00; xab; xff].
Proof. reflexivity. Qed.

Example fromhex_odd : fromhex "abc" = None.
Proof. reflexivity. Qed.

Example fromhex_inner_space : fromhex "a b" = None.
Proof. reflexivity. Qed.

Example decode_bad : decode_utf8 [xff] = None.
Proof. reflexivity. Qed.

Example decode_overlong : decode_utf8 [xc0; x80] = None.
Proof. reflexivity. Qed.

Example decode_good : decode_utf8 [x68; x69; xc3; xa9] = Some (String "h" (String "i" (String (ascii_of_N 195) (String (ascii_of_N 169) EmptyString)))).
Proof. reflexivity. Qed.

Example int_of_float_ex : int_of_float (2401 # 4) = 600.
Proof. reflexivity. Qed.

(** ** [send] and [POST /send] *)

Section SendFacts.

Context {Identity World : Type}.
Variable TRUNCATED_HASHLENGTH : Z.
Variable recall : bytes -> option Identity.

Implicit Types s : LXMFAPI (Identity := Identity) (World := World).

Lemma put_not_raised lxm s s' e : put lxm s ≠ (s', Raised e).
Proof. unfold put. case_match; congruence. Qed.

(** A destination that does not parse, or parses to another length, leaves
    queue and trace alone and is answered as a success. *)
Lemma send_message_rejected req s :
  (match fromhex (destination req) with
   | None => True
   | Some h => Z.of_nat (length h) ≠ TRUNCATED_HASHLENGTH / 8
   end) ->
  exists s',
    send_message TRUNCATED_HASHLENGTH recall req s
      = (s', Some {| status_code := 200; detail := "message queued" |})
    /\ queue s' = queue s /\ trace s' = trace s.
Proof.
  unfold send_message, send. destruct (fromhex (destination req)) as [h|]; intros H.
  - destruct (Z.eqb_spec (Z.of_nat (length h)) (TRUNCATED_HASHLENGTH / 8)); [done|].
    simpl. eauto.
  - eauto.
Qed.

(** An unknown destination of the right length: one path request, nothing
    queued, and again the success answer. *)
Lemma send_message_unknown req s h :
  fromhex (destination req) = Some h ->
  Z.of_nat (length h) = TRUNCATED_HASHLENGTH / 8 ->
  recall h = None ->
  exists s',
    send_message TRUNCATED_HASHLENGTH recall req s
      = (s', Some {| status_code := 200; detail := "message queued" |})
    /\ queue s' = queue s /\ trace s' = trace s ++ [RequestPath h].
Proof.
  intros Hh Hlen Hr. unfold send_message, send. rewrite Hh.
  apply Z.eqb_eq in Hlen. rewrite Hlen, Hr. simpl. eauto.
Qed.

End SendFacts.

(** C1 (the code departs from the claim).  [POST /send] with a destination
    that is not hexadecimal, and with one that decodes to 2 bytes instead of
    16: nothing is queued and no call is made, yet the answer is status 200
    with the text "message queued", not status 400. *)
Theorem send_message_invalid_destination_answers_200 :
  let bad_format := {| destination := "not-hex"; message := "hi"; title := "Reply" |} in
  let bad_length := {| destination := "abcd"; message := "hi"; title := "Reply" |} in
  send_message 128 no_identity bad_format fresh_api
    = (RNS_log "Invalid destination hash" LOG_ERROR fresh_api,
       Some {| status_code := 200; detail := "message queued" |})
  /\ send_message 128 no_identity bad_length fresh_api
    = (RNS_log "Invalid destination hash length" LOG_ERROR fresh_api,
       Some {| status_code := 200; detail := "message queued" |})
  /\ get_status (RNS_log "Invalid destination hash" LOG_ERROR fresh_api)
     = get_status fresh_api
  /\ get_status (RNS_log "Invalid destination hash length" LOG_ERROR fresh_api)
     = get_status fresh_api.
Proof. repeat split; reflexivity. Qed.

(** C5 (the code departs from the claim).  [POST /send] with a well-formed
    16-byte destination whose identity is unknown: the queue stays empty and
    exactly one path request is made, yet the answer is status 200 with the
    text "message queued", not status 400. *)
Theorem send_message_unknown_identity_answers_200 :
  let req := {| destination := "00112233445566778899aabbccddeeff";
                message := "hi"; title := "Reply" |} in
  let '(s', r) := send_message 128 no_identity req fresh_api in
  r = Some {| status_code := 200; detail := "message queued" |}
  /\ queue s' = []
  /\ trace s'
     = [RequestPath [x00; x11; x22; x33; x44; x55; x66; x77;
                     x88; x99; xaa; xbb; xcc; xdd; xee; xff]].
Proof. repeat split; reflexivity. Qed.

(** ** [_message_received] *)

Section InboundFacts.

Context {Identity World : Type}.

Implicit Types s : LXMFAPI (Identity := Identity) (World := World).
Implicit Types w : World.
Implicit Types m : LXMessageIn.

(** The loop is [call_all] on the namespace when the content decodes. *)
Lemma for_callback_decoded m text callbacks w :
  decode_utf8 (content m) = Some text ->
  for_callback m (hexrep (source_hash m)) (hexrep (hash m)) callbacks w
  = call_all (namespace m text) callbacks w.
Proof.
  intros Hd. revert w. induction callbacks as [|cb rest IH]; intros w; simpl; [done|].
  rewrite Hd. fold (namespace m text).
  destruct (cb (namespace m text) w) as [w' [e|]]; [done|apply IH].
Qed.

(** With at least one function registered, content that does not decode
    raises before any call. *)
Lemma for_callback_undecodable m cb rest w :
  decode_utf8 (content m) = None ->
  for_callback m (hexrep (source_hash m)) (hexrep (hash m)) (cb :: rest) w
  = (w, Some UnicodeDecodeError).
Proof. intros Hd. simpl. by rewrite Hd. Qed.

(** A receipt already listed: nothing but the log line. *)
Lemma message_received_duplicate m s w :
  hexrep (hash m) ∈ receipts s ->
  _message_received m s w = (RNS_log (receipt_log m) LOG_INFO s, w, None).
Proof.
  intros Hin. unfold _message_received. simpl.
  by rewrite bool_decide_eq_true_2.
Qed.

(** A receipt not listed: recorded, then the loop. *)
Lemma message_received_new m s w :
  hexrep (hash m) ∉ receipts s ->
  _message_received m s w
  = (set_receipts (append_receipt (hexrep (hash m)) (receipts s))
       (RNS_log (receipt_log m) LOG_INFO s),
     (for_callback m (hexrep (source_hash m)) (hexrep (hash m))
        (delivery_callbacks s) w).1,
     (for_callback m (hexrep (source_hash m)) (hexrep (hash m))
        (delivery_callbacks s) w).2).
Proof.
  intros Hnin. unfold _message_received. simpl.
  rewrite bool_decide_eq_false_2 by done.
  by destruct (for_callback _ _ _ _ _).
Qed.

Lemma message_received_new_receipts m s w :
  hexrep (hash m) ∉ receipts s ->
  receipts (_message_received m s w).1.1
  = append_receipt (hexrep (hash m)) (receipts s).
Proof. intros Hnin. by rewrite message_received_new. Qed.

Lemma message_received_duplicate_receipts m s w :
  hexrep (hash m) ∈ receipts s ->
  receipts (_message_received m s w).1.1 = receipts s.
Proof. intros Hin. by rewrite message_received_duplicate. Qed.

(** What the handler does to the receipt list depends on the list and the
    receipt only. *)
Lemma message_received_receipts m s w :
  receipts (_message_received m s w).1.1
  = seen_after [hexrep (hash m)] (receipts s).
Proof.
  unfold seen_after. simpl.
  destruct (decide (hexrep (hash m) ∈ receipts s)) as [Hin|Hnin].
  - rewrite message_received_duplicate by done. simpl.
    by rewrite bool_decide_eq_true_2.
  - rewrite message_received_new by done. simpl.
    by rewrite bool_decide_eq_false_2.
Qed.

Lemma seen_after_app ids1 ids2 rs :
  seen_after (ids1 ++ ids2) rs = seen_after ids2 (seen_after ids1 rs).
Proof. unfold seen_after. apply foldl_app. Qed.

Lemma deliver_all_receipts ms s w :
  receipts (deliver_all ms s w).1
  = seen_after ((fun m => hexrep (hash m)) <$> ms) (receipts s).
Proof.
  revert s w. induction ms as [|m ms IH]; intros s w; [done|].
  unfold deliver_all. simpl.
  pose proof (message_received_receipts m s w) as Hr.
  destruct (_message_received m s w) as [[s' w'] e]. simpl in *.
  change (foldl _ (s', w') ms) with (deliver_all ms s' w').
  rewrite IH, Hr. done.
Qed.

(** The newest receipt is on the list after it is appended. *)
Lemma append_receipt_elem r rs : r ∈ append_receipt r rs.
Proof.
  unfold append_receipt. case_match; [|set_solver].
  destruct rs as [|x rs]; simpl in *.
  - apply Nat.ltb_lt in H. lia.
  - rewrite drop_0. set_solver.
Qed.

Lemma append_receipt_length r rs :
  (length rs <= 100 -> length (append_receipt r rs) <= 100)%nat.
Proof.
  intros Hl. unfold append_receipt.
  destruct (Nat.ltb_spec 100 (length (rs ++ [r]))) as [Hlt|Hge].
  - rewrite length_drop, length_app. simpl. lia.
  - lia.
Qed.

End InboundFacts.

(** ** The receipt list *)

Section ReceiptFacts.

Implicit Types rs ids pre post : list string.
Implicit Types r x : string.

Lemma seen_after_cons x ids rs :
  seen_after (x :: ids) rs
  = seen_after ids (if bool_decide (x ∈ rs) then rs else append_receipt x rs).
Proof. reflexivity. Qed.

Lemma distinct_others_mono r ids1 ids2 :
  (forall x, x ∈ ids1 -> x ∈ ids2) ->
  (distinct_others r ids1 <= distinct_others r ids2)%nat.
Proof.
  intros Hsub. unfold distinct_others. apply submseteq_length.
  apply NoDup_submseteq; [apply NoDup_remove_dups|].
  intros x. rewrite !elem_of_remove_dups, !list_elem_of_filter. naive_solver.
Qed.

(** Distinct ids other than [r] that all occur in [ids] are at most
    [distinct_others r ids] many. *)
Lemma distinct_others_bound r post ids :
  NoDup post -> r ∉ post -> (forall x, x ∈ post -> x ∈ ids) ->
  (length post <= distinct_others r ids)%nat.
Proof.
  intros Hnd Hr Hsub. unfold distinct_others. apply submseteq_length.
  apply NoDup_submseteq; [done|].
  intros x Hx. rewrite elem_of_remove_dups, list_elem_of_filter.
  split; [|by apply Hsub]. intros ->. done.
Qed.

(** [r] stays on the list while the ids recorded behind it, together with
    those still to come, count fewer than 100 distinct ones. *)
Lemma seen_after_keeps r ids : forall pre post,
  NoDup post -> r ∉ post ->
  (distinct_others r (post ++ ids) < 100)%nat ->
  r ∈ seen_after ids (pre ++ r :: post).
Proof.
  induction ids as [|x ids IH]; intros pre post Hnd Hr Hlt.
  { simpl. set_solver. }
  rewrite seen_after_cons.
  case_bool_decide as Hx.
  - apply IH; [done..|].
    eapply Nat.le_lt_trans; [|exact Hlt].
    apply distinct_others_mono. set_solver.
  - assert (x ≠ r) as Hxr by set_solver.
    assert (x ∉ post) as Hxp by set_solver.
    assert (NoDup (post ++ [x])) as Hnd'.
    { apply NoDup_app. split_and!; [done|set_solver|apply NoDup_singleton]. }
    assert (r ∉ post ++ [x]) as Hr' by set_solver.
    assert ((distinct_others r ((post ++ [x]) ++ ids) < 100)%nat) as Hlt'.
    { by rewrite <- app_assoc. }
    unfold append_receipt.
    replace ((pre ++ r :: post) ++ [x]) with (pre ++ r :: (post ++ [x]))
      by (by rewrite <- app_assoc).
    destruct (Nat.ltb_spec 100 (length (pre ++ r :: post ++ [x]))) as [Hfull|_].
    + destruct pre as [|p pre].
      * exfalso. simpl in Hfull.
        assert (length (post ++ [x]) <= distinct_others r (post ++ x :: ids))%nat as Hb.
        { apply distinct_others_bound; [done..|set_solver]. }
        lia.
      * simpl. rewrite drop_0. by apply IH.
    + by apply IH.
Qed.

(** Ids that are all new and pairwise distinct push the list along: what is
    left are the last 100 of the old list followed by the new ids. *)
Lemma seen_after_fresh ids : forall rs,
  NoDup ids -> (forall x, x ∈ ids -> x ∉ rs) -> (length rs <= 100)%nat ->
  seen_after ids rs = drop (length (rs ++ ids) - 100) (rs ++ ids).
Proof.
  induction ids as [|x ids IH]; intros rs Hnd Hfresh Hlen.
  { simpl. rewrite app_nil_r. replace (length rs - 100)%nat with 0%nat by lia. done. }
  apply NoDup_cons in Hnd as [Hx Hnd].
  rewrite seen_after_cons.
  rewrite bool_decide_eq_false_2 by (apply Hfresh; set_solver).
  rewrite IH; [|done| |by apply append_receipt_length].
  - unfold append_receipt.
    destruct (Nat.ltb_spec 100 (length (rs ++ [x]))) as [Hfull|Hroom].
    + rewrite length_app in Hfull. simpl in Hfull.
      rewrite <- drop_app_le by (rewrite length_app; simpl; lia).
      rewrite <- app_assoc. simpl. rewrite drop_drop.
      f_equal. rewrite length_drop, !length_app. simpl. lia.
    + rewrite <- app_assoc. done.
  - intros y Hy Hin. unfold append_receipt in Hin.
    assert (y ∈ rs ++ [x]) as Hin'.
    { case_match; [by eapply subseteq_drop|done]. }
    apply elem_of_app in Hin' as [Hin'|Hin'].
    + eapply Hfresh; [|done]. set_solver.
    + apply list_elem_of_singleton in Hin'. by subst.
Qed.

(** After 100 new, pairwise distinct ids nothing of the old list is left. *)
Lemma seen_after_evicts ids rs :
  NoDup ids -> (forall x, x ∈ ids -> x ∉ rs) -> (length rs <= 100)%nat ->
  length ids = 100%nat ->
  seen_after ids rs = ids.
Proof.
  intros Hnd Hfresh Hlen H100. rewrite seen_after_fresh by done.
  rewrite length_app, H100.
  replace (length rs + 100 - 100)%nat with (length rs) by lia.
  apply drop_app_length.
Qed.

End ReceiptFacts.

(** ** Deduplication of inbound messages *)

Section Dedup.

Context {Identity World : Type}.

Implicit Types s : LXMFAPI (Identity := Identity) (World := World).
Implicit Types w : World.
Implicit Types m : LXMessageIn.

Lemma append_receipt_last r rs : exists pre, append_receipt r rs = pre ++ [r].
Proof.
  unfold append_receipt.
  destruct (Nat.ltb_spec 100 (length (rs ++ [r]))) as [Hfull|_]; [|by eexists].
  destruct rs as [|x rs]; [simpl in Hfull; lia|].
  exists rs. simpl. by rewrite drop_0.
Qed.

(** C3.  A message whose receipt id is not on the list is treated as new:
    the id is recorded and the loop over the callbacks runs.  Delivered
    again, at once or after any deliveries that bring fewer than 100
    distinct other ids, it is a duplicate: the handler returns without
    touching the world of the callbacks.  Once 100 pairwise distinct ids
    that were not on the list have come in, the id is gone from the list, so
    that the next delivery would be new again. *)
Theorem receipt_new_once_then_duplicate s w m (later : list LXMessageIn) :
  let r := hexrep (hash m) in
  let ids := (fun m' => hexrep (hash m')) <$> later in
  let first := _message_received m s w in
  let after := deliver_all later first.1.1 first.1.2 in
  r ∉ receipts s ->
  (length (receipts s) <= 100)%nat ->
  (first.1.2, first.2)
    = for_callback m (hexrep (source_hash m)) r (delivery_callbacks s) w
  /\ r ∈ receipts first.1.1
  /\ ((distinct_others r ids < 100)%nat ->
      forall w',
        _message_received m after.1 w'
        = (RNS_log (receipt_log m) LOG_INFO after.1, w', None))
  /\ (NoDup ids -> length ids = 100%nat ->
      (forall x, x ∈ ids -> x ∉ receipts first.1.1) ->
      r ∉ receipts after.1).
Proof.
  intros r ids first after Hnew Hlen.
  assert (receipts first.1.1 = append_receipt r (receipts s)) as Hrs.
  { by apply message_received_new_receipts. }
  split_and!.
  - subst first. rewrite message_received_new by done. simpl.
    by destruct (for_callback _ _ _ _ _).
  - rewrite Hrs. apply append_receipt_elem.
  - intros Hfew w'. apply message_received_duplicate.
    subst after. rewrite deliver_all_receipts, Hrs.
    destruct (append_receipt_last r (receipts s)) as [pre ->].
    apply seen_after_keeps; [apply NoDup_nil_2|set_solver|done].
  - intros Hnd H100 Hfresh. subst after.
    rewrite deliver_all_receipts.
    rewrite seen_after_evicts; [|done..| |done].
    + intros Hin. apply (Hfresh r Hin). rewrite Hrs. apply append_receipt_elem.
    + rewrite Hrs. by apply append_receipt_length.
Qed.

(** C9.  With at most 100 receipts listed before a message comes in, at
    most 100 are listed after; an id already listed leaves the list as it
    is, order included; a new id goes to the end, and when the list was
    full its first, oldest entry is the one removed. *)
Theorem receipts_bounded_fifo s w m :
  let r := hexrep (hash m) in
  let rs' := receipts (_message_received m s w).1.1 in
  (length (receipts s) <= 100)%nat ->
  (length rs' <= 100)%nat
  /\ (r ∈ receipts s -> rs' = receipts s)
  /\ (r ∉ receipts s -> (length (receipts s) < 100)%nat -> rs' = receipts s ++ [r])
  /\ (r ∉ receipts s -> length (receipts s) = 100%nat ->
      rs' = drop 1 (receipts s) ++ [r]).
Proof.
  intros r rs' Hlen. subst rs' r. split_and!.
  - destruct (decide (hexrep (hash m) ∈ receipts s)) as [Hin|Hnin].
    + by rewrite message_received_duplicate_receipts.
    + rewrite message_received_new_receipts by done. by apply append_receipt_length.
  - intros Hin. by rewrite message_received_duplicate_receipts.
  - intros Hnin Hlt. rewrite message_received_new_receipts by done.
    unfold append_receipt.
    destruct (Nat.ltb_spec 100 (length (receipts s ++ [hexrep (hash m)])))
      as [Hfull|_]; [|done].
    rewrite length_app in Hfull. simpl in Hfull. lia.
  - intros Hnin Hfull. rewrite message_received_new_receipts by done.
    unfold append_receipt.
    destruct (Nat.ltb_spec 100 (length (receipts s ++ [hexrep (hash m)])))
      as [_|Hroom].
    + apply drop_app_le. lia.
    + rewrite length_app in Hroom. simpl in Hroom. lia.
Qed.

(** The list is empty at construction and only [_message_received] writes
    it, so the bound holds after any series of deliveries. *)
Lemma receipts_bounded_from_init local_hash file immediately (ms : list LXMessageIn) w :
  (length (receipts (deliver_all ms (__init__ (Identity := Identity) local_hash file immediately) w).1)
   <= 100)%nat.
Proof.
  rewrite deliver_all_receipts. simpl.
  generalize ((fun m => hexrep (hash m)) <$> ms). intros ids.
  assert (length (@nil string) <= 100)%nat as Hnil by (simpl; lia).
  revert Hnil. generalize (@nil string).
  induction ids as [|x ids IH]; intros rs Hrs; [done|].
  rewrite seen_after_cons. apply IH.
  case_bool_decide; [done|by apply append_receipt_length].
Qed.

(** C10.  Whatever the callbacks do, and whether or not the handler ends
    in an exception, the receipt id is on the list when the handler is
    left; a later delivery with the same hash, whatever its sender and
    content, only logs: it calls nothing and leaves list and world alone. *)
Theorem receipt_recorded_before_callbacks s w m :
  let first := _message_received m s w in
  hexrep (hash m) ∈ receipts first.1.1
  /\ forall (src body : bytes) w',
       let again := {| source_hash := src; hash := hash m; content := body |} in
       _message_received again first.1.1 w'
       = (RNS_log (receipt_log again) LOG_INFO first.1.1, w', None).
Proof.
  intros first.
  assert (hexrep (hash m) ∈ receipts first.1.1) as Hin.
  { subst first. destruct (decide (hexrep (hash m) ∈ receipts s)) as [Hin|Hnin].
    - by rewrite message_received_duplicate_receipts.
    - rewrite message_received_new_receipts by done. apply append_receipt_elem. }
  split; [done|]. intros src body w' again.
  by apply message_received_duplicate.
Qed.

(** C2, as the code has it.  For a new receipt id and content that
    decodes, the functions are called in the order they were registered.
    When one of them raises, those registered before it have been called,
    those registered after it are not called, and the exception leaves
    [_message_received]. *)
Theorem callback_failure_stops_the_loop s w m text
    (before after : list Callback) (failing : Callback) w1 w2 e :
  hexrep (hash m) ∉ receipts s ->
  decode_utf8 (content m) = Some text ->
  delivery_callbacks s = before ++ failing :: after ->
  call_all (namespace m text) before w = (w1, None) ->
  failing (namespace m text) w1 = (w2, Some e) ->
  (_message_received m s w).1.2 = w2
  /\ (_message_received m s w).2 = Some e.
Proof.
  intros Hnew Hdec Hcbs Hbefore Hfail.
  rewrite message_received_new by done. simpl.
  rewrite (for_callback_decoded m text) by done. rewrite Hcbs.
  clear Hcbs Hnew. revert w Hbefore.
  induction before as [|cb before IH]; intros w Hbefore; simpl in *.
  - inversion Hbefore; subst. by rewrite Hfail.
  - destruct (cb (namespace m text) w) as [w' [e'|]]; [done|]. by apply IH.
Qed.

End Dedup.

(** ** Fan-out to the registered functions *)

(** C2 fails on the code.  A function that raises is registered first, the
    callback of websocket connection 0 second.  A new message comes in: the
    exception leaves [_message_received], and connection 0 has received
    nothing. *)
Lemma callback_failure_starves_later_subscriber :
  let result := _message_received hello
                  (api_with [raising_callback; Ws.message_callback 0])
                  one_connection in
  result.2 = Some (CallbackError "boom")
  /\ result.1.2 !! 0%nat = Some []
  /\ ~ (result.2 = None /\ result.1.2 !! 0%nat = Some [hello_event]).
Proof.
  split_and!; [reflexivity|reflexivity|].
  intros [Hnone _]. discriminate Hnone.
Qed.

(** The same registration order reversed: the subscriber registered before
    the raising function has its event, and the exception still leaves the
    handler. *)
Example callback_failure_after_subscriber :
  let result := _message_received hello
                  (api_with [Ws.message_callback 0; raising_callback])
                  one_connection in
  result.2 = Some (CallbackError "boom")
  /\ result.1.2 !! 0%nat = Some [hello_event].
Proof. split; reflexivity. Qed.

Lemma callback_failure_stops_the_loop_witness :
  let s := api_with [Ws.message_callback 0; raising_callback; Ws.message_callback 1] in
  let result := _message_received hello s two_connections in
  result.1.2 = <[ 0%nat := [hello_event] ]> two_connections
  /\ result.2 = Some (CallbackError "boom").
Proof.
  intros s result.
  apply (callback_failure_stops_the_loop s two_connections hello "hi"
           [Ws.message_callback 0] [Ws.message_callback 1] raising_callback
           (<[ 0%nat := [hello_event] ]> two_connections)
           (<[ 0%nat := [hello_event] ]> two_connections)
           (CallbackError "boom")).
  - vm_compute. intros H. inversion H.
  - reflexivity.
  - reflexivity.
  - reflexivity.
  - reflexivity.
Defined.

(** ** Websocket subscribers *)

Section WsFacts.

Implicit Types w : Ws.Queues.
Implicit Types wss : list nat.

(** The callbacks of pairwise distinct connections, called in order on one
    namespace: none raises, every one of these connections has one more
    event at the back of its queue, and no other queue changes. *)
Lemma call_all_message_callbacks msg wss : forall w,
  NoDup wss ->
  let event := {| Ws.ev_sender := msg_sender msg;
                  Ws.ev_content := msg_content msg;
                  Ws.ev_hash := msg_hash msg |} in
  let result := call_all msg (Ws.message_callback <$> wss) w in
  result.2 = None
  /\ (forall ws, ws ∈ wss ->
        result.1 !! ws = Some (default [] (w !! ws) ++ [event]))
  /\ (forall ws, ws ∉ wss -> result.1 !! ws = w !! ws).
Proof.
  induction wss as [|a wss IH]; intros w Hnd event result.
  { subst result. simpl. split_and!; [done|set_solver|done]. }
  apply NoDup_cons in Hnd as [Ha Hnd].
  subst result. simpl.
  destruct (IH (<[a := default [] (w !! a) ++ [event]]> w) Hnd) as (He & Hin & Hout).
  split_and!.
  - exact He.
  - intros ws Hws. apply elem_of_cons in Hws as [->|Hws].
    + rewrite Hout by done. apply lookup_insert_eq.
    + rewrite Hin by done. rewrite lookup_insert_ne; [done|]. intros ->. done.
  - intros ws Hws. apply not_elem_of_cons in Hws as [Hne Hws].
    rewrite Hout by done. by rewrite lookup_insert_ne.
Qed.

(** C8 fails on the code.  One websocket subscriber is registered and a new
    message comes in whose content is the single byte 0xff: decoding raises
    inside the loop, before the callback is called, and the subscriber has
    received nothing. *)
Lemma undecodable_content_reaches_no_subscriber :
  let result := _message_received garbled
                  (api_with [Ws.message_callback 0]) one_connection in
  (hexrep (hash garbled) ∉ receipts (api_with [Ws.message_callback 0]))
  /\ result.2 = Some UnicodeDecodeError
  /\ result.1.2 !! 0%nat = Some []
  /\ ~ (exists event, result.1.2 !! 0%nat = Some [event]).
Proof.
  split_and!; [|reflexivity|reflexivity|].
  - vm_compute. intros H. inversion H.
  - intros [event H]. vm_compute in H. discriminate H.
Qed.

(** C8, as the code has it.  The registered functions are the callbacks of
    pairwise distinct websocket connections, the receipt id is new and the
    content decodes: the handler returns, every registered connection has
    exactly one more event on its queue, carrying the sender address, the
    decoded content and the receipt id of the message, and the queue of any
    other connection is as before. *)
Theorem new_message_reaches_every_websocket_subscriber {Identity : Type}
    (s : LXMFAPI (Identity := Identity)) w (m : LXMessageIn) text wss :
  hexrep (hash m) ∉ receipts s ->
  decode_utf8 (content m) = Some text ->
  delivery_callbacks s = Ws.message_callback <$> wss ->
  NoDup wss ->
  let event := {| Ws.ev_sender := hexrep (source_hash m);
                  Ws.ev_content := text;
                  Ws.ev_hash := hexrep (hash m) |} in
  let result := _message_received m s w in
  result.2 = None
  /\ (forall ws, ws ∈ wss ->
        result.1.2 !! ws = Some (default [] (w !! ws) ++ [event]))
  /\ (forall ws, ws ∉ wss -> result.1.2 !! ws = w !! ws).
Proof.
  intros Hnew Hdec Hcbs Hnd event result. subst result.
  rewrite message_received_new by done. simpl.
  rewrite (for_callback_decoded m text) by done. rewrite Hcbs.
  apply (call_all_message_callbacks (namespace m text) wss w Hnd).
Qed.

End WsFacts.

Lemma new_message_reaches_every_websocket_subscriber_witness :
  let result := _message_received hello
                  (api_with [Ws.message_callback 0; Ws.message_callback 1])
                  two_connections in
  result.2 = None
  /\ result.1.2 !! 0%nat = Some [hello_event]
  /\ result.1.2 !! 1%nat = Some [hello_event]
  /\ result.1.2 !! 2%nat = None.
Proof.
  intros result.
  destruct (new_message_reaches_every_websocket_subscriber
              (api_with [Ws.message_callback 0; Ws.message_callback 1])
              two_connections hello "hi" [0%nat; 1%nat])
    as (He & Hin & Hout).
  - vm_compute. intros H. inversion H.
  - reflexivity.
  - reflexivity.
  - apply NoDup_cons. split; [set_solver|apply NoDup_singleton].
  - split_and!.
    + exact He.
    + apply (Hin 0%nat). set_solver.
    + apply (Hin 1%nat). set_solver.
    + etrans; [apply (Hout 2%nat); set_solver|reflexivity].
Defined.

(** ** The statements on the receipt list at concrete inputs *)

Lemma receipt_new_once_then_duplicate_witness :
  let s := api_with [Ws.message_callback 0] in
  let first := _message_received hello s one_connection in
  (forall w',
     _message_received hello first.1.1 w'
     = (RNS_log (receipt_log hello) LOG_INFO first.1.1, w', None))
  /\ hexrep (hash hello)
       ∉ receipts (deliver_all hundred_messages first.1.1 first.1.2).1.
Proof.
  intros s first. split.
  - destruct (receipt_new_once_then_duplicate s one_connection hello [])
      as (_ & _ & Hdup & _).
    + vm_compute. intros H. inversion H.
    + vm_compute. lia.
    + apply Hdup. vm_compute. lia.
  - destruct (receipt_new_once_then_duplicate s one_connection hello hundred_messages)
      as (_ & _ & _ & Hgone).
    + vm_compute. intros H. inversion H.
    + vm_compute. lia.
    + apply Hgone.
      * compute_done.
      * reflexivity.
      * apply Forall_forall. compute_done.
Defined.

Lemma receipts_bounded_fifo_witness :
  let s := api_with [Ws.message_callback 0] in
  let full := (deliver_all hundred_messages s one_connection).1 in
  let rs' := receipts (_message_received hello full one_connection).1.1 in
  (length rs' <= 100)%nat
  /\ rs' = drop 1 (receipts full) ++ ["1020"]
  /\ receipts (_message_received hello s one_connection).1.1 = ["1020"]
  /\ receipts (_message_received (numbered 7) full one_connection).1.1
     = receipts full.
Proof.
  intros s full rs'.
  assert (length (receipts full) = 100%nat) as Hfull by reflexivity.
  destruct (receipts_bounded_fifo full one_connection hello)
    as (Hle & _ & _ & Hevict); [lia|].
  destruct (receipts_bounded_fifo s one_connection hello)
    as (_ & _ & Happend & _); [vm_compute; lia|].
  destruct (receipts_bounded_fifo full one_connection (numbered 7))
    as (_ & Hsame & _ & _); [lia|].
  split_and!.
  - exact Hle.
  - apply Hevict; [|exact Hfull]. compute_done.
  - apply Happend; [|vm_compute; lia]. compute_done.
  - apply Hsame. compute_done.
Defined.

(** ** [_announce] *)

Section AnnounceFacts.

Context {Identity World : Type}.

Implicit Types s : LXMFAPI (Identity := Identity) (World := World).

Lemma announces_app (tr1 tr2 : list (Call (Identity := Identity))) :
  announces (tr1 ++ tr2) = (announces tr1 + announces tr2)%nat.
Proof. unfold announces. by rewrite omap_app, length_app. Qed.

(** For a clock that is not negative, the whole second read from it has
    reached an integer deadline exactly when the clock has. *)
Lemma int_of_float_reached (deadline : Z) (now : Q) :
  (0 <= now)%Q ->
  deadline <= int_of_float now <-> (inject_Z deadline <= now)%Q.
Proof.
  destruct now as [n p]. unfold Qle, int_of_float, inject_Z. simpl.
  intros Hn. rewrite Z.mul_1_r in Hn. rewrite Z.mul_1_r.
  rewrite Z.quot_div_nonneg by lia. split.
  - intros Hd. pose proof (Z.mul_div_le n (Z.pos p)). nia.
  - intros Hd. apply Z.div_le_lower_bound; lia.
Qed.

(** The deadline not reached: nothing is written and nothing announced. *)
Lemma announce_recent s now_check now_write :
  int_of_float now_check < default 1 (announce_file s) ->
  _announce now_check now_write s = RNS_log "Recent announcement" LOG_DEBUG s.
Proof.
  intros Hlt. unfold _announce. apply Z.ltb_lt in Hlt. by rewrite Hlt.
Qed.

(** The deadline reached: the file is written, then the primitive called. *)
Lemma announce_due s now_check now_write :
  default 1 (announce_file s) <= int_of_float now_check ->
  let next_announce := int_of_float now_write + announce_time s in
  let s' := _announce now_check now_write s in
  trace s' = trace s ++ [WriteAnnounce next_announce; Announce]
  /\ announce_file s' = Some next_announce
  /\ announce_time s' = announce_time s.
Proof.
  intros Hdue next_announce s'. subst s'. unfold _announce.
  apply Z.ltb_ge in Hdue. rewrite Hdue. simpl.
  split_and!; [|done..]. by rewrite <- app_assoc.
Qed.

(** C7.  When the deadline kept in the announce file, or 1 when there is
    no file, is not after the clock's whole second, [_announce] writes the
    whole second of the clock plus the interval to the file and then calls
    the announce primitive, in this order and with nothing in between; the
    interval is 600 seconds in every object as constructed. *)
Theorem announce_persists_then_announces s now_check now_write :
  default 1 (announce_file s) <= int_of_float now_check ->
  let next_announce := int_of_float now_write + announce_time s in
  let s' := _announce now_check now_write s in
  trace s' = trace s ++ [WriteAnnounce next_announce; Announce]
  /\ announce_file s' = Some next_announce
  /\ announce_time s' = announce_time s
  /\ forall local_hash file immediately,
       announce_time (__init__ (Identity := Identity) (World := World)
                        local_hash file immediately) = 600.
Proof.
  intros Hdue next_announce s'.
  destruct (announce_due s now_check now_write Hdue) as (Htr & Hfile & Htime).
  split_and!; done.
Qed.

(** Calls that all find the deadline ahead leave the trace alone. *)
Lemma announce_all_recent (calls : list (Q * Q)) : forall s,
  Forall (fun p => int_of_float p.1 < default 1 (announce_file s)) calls ->
  trace (announce_all calls s) = trace s.
Proof.
  induction calls as [|[a b] calls IH]; intros s Hall; [done|].
  apply Forall_cons in Hall as [Ha Hall]. simpl in Ha.
  unfold announce_all. simpl. rewrite announce_recent by done.
  apply (IH (RNS_log "Recent announcement" LOG_DEBUG s)). done.
Qed.

(** Calls whose readings all lie in one window shorter than the interval
    announce at most once between them. *)
Lemma announce_all_window (calls : list (Q * Q)) (lo : Z) : forall s,
  Forall (fun p => lo <= int_of_float p.2
                   /\ int_of_float p.1 < lo + announce_time s) calls ->
  (announces (trace (announce_all calls s)) <= announces (trace s) + 1)%nat.
Proof.
  induction calls as [|[a b] calls IH]; intros s Hall; [simpl; lia|].
  apply Forall_cons in Hall as [[Hb Ha] Hall]. simpl in Ha, Hb.
  unfold announce_all. simpl. fold (announce_all calls (_announce a b s)).
  destruct (Z.ltb_spec (int_of_float a) (default 1 (announce_file s))) as [Hrecent|Hdue].
  - rewrite (announce_recent s) by done.
    apply (IH (RNS_log "Recent announcement" LOG_DEBUG s)). done.
  - destruct (announce_due s a b Hdue) as (Htr & Hfile & Htime).
    rewrite announce_all_recent.
    + rewrite Htr, announces_app. unfold announces at 2. simpl. lia.
    + rewrite Hfile. simpl. eapply Forall_impl; [exact Hall|].
      intros [a' b'] [_ Ha']. simpl in *. lia.
Qed.

(** C4, as the code has it.  A series of calls, two of them or more, the
    clock never reading a whole second before the one the first call read:
    when every later call reads a whole second less than the interval after
    the first call's, the announce primitive is called at most once over
    the whole series. *)
Theorem announce_at_most_once_in_whole_seconds s t1 t1' (later : list (Q * Q)) :
  int_of_float t1 <= int_of_float t1' ->
  Forall (fun p => int_of_float t1 <= int_of_float p.2
                   /\ int_of_float p.1 - int_of_float t1 < announce_time s)
         later ->
  (announces (trace (announce_all ((t1, t1') :: later) s))
   <= announces (trace s) + 1)%nat.
Proof.
  intros Hmono Hlater.
  unfold announce_all. simpl. fold (announce_all later (_announce t1 t1' s)).
  destruct (Z.ltb_spec (int_of_float t1) (default 1 (announce_file s))) as [Hrecent|Hdue].
  - rewrite (announce_recent s) by done.
    apply (announce_all_window later (int_of_float t1)
             (RNS_log "Recent announcement" LOG_DEBUG s)).
    eapply Forall_impl; [exact Hlater|]. intros [a b] [Hb Ha]. simpl in *. lia.
  - destruct (announce_due s t1 t1' Hdue) as (Htr & Hfile & Htime).
    rewrite announce_all_recent.
    + rewrite Htr, announces_app. unfold announces at 2. simpl. lia.
    + rewrite Hfile. simpl. eapply Forall_impl; [exact Hlater|].
      intros [a b] [_ Ha]. simpl in *. lia.
Qed.

End AnnounceFacts.

(** C4 fails on the code.  The object is constructed with no announce
    file; [_announce] runs at 1700000000.75 and again at 1700000600.25,
    which is 599.5 seconds later and so within the interval of 600 seconds.
    The first call writes the deadline 1700000600; the second reads the
    whole second 1700000600, finds the deadline not ahead of it, and
    announces again. *)
Lemma announce_twice_within_interval :
  let t1 := (6800000003 # 4)%Q in
  let t2 := (6800002401 # 4)%Q in
  let s1 := _announce t1 t1 fresh_api in
  let s2 := _announce t2 t2 s1 in
  (0 <= t2 - t1)%Q
  /\ (t2 - t1 < inject_Z (announce_time fresh_api))%Q
  /\ announce_file s1 = Some 1700000600
  /\ announces (trace s1) = 1%nat
  /\ announces (trace s2) = 2%nat
  /\ ~ (announces (trace s2) <= announces (trace fresh_api) + 1)%nat.
Proof.
  split_and!; try reflexivity.
  - vm_compute. discriminate.
  - vm_compute. lia.
Qed.

Lemma announce_at_most_once_in_whole_seconds_witness :
  let t1 := (6800000003 # 4)%Q in
  let t2 := (6800000043 # 4)%Q in
  let t3 := (6800002399 # 4)%Q in
  (announces (trace (announce_all [(t1, t1); (t2, t2); (t3, t3)] fresh_api))
   <= announces (trace fresh_api) + 1)%nat.
Proof.
  intros t1 t2 t3.
  apply (announce_at_most_once_in_whole_seconds fresh_api t1 t1 [(t2, t2); (t3, t3)]).
  - vm_compute. discriminate.
  - repeat constructor; vm_compute; try discriminate; reflexivity.
Defined.

Lemma announce_persists_then_announces_witness :
  let now := (6800000003 # 4)%Q in
  let s' := _announce now now fresh_api in
  trace s' = [WriteAnnounce 1700000600; Announce]
  /\ announce_file s' = Some 1700000600.
Proof.
  intros now s'.
  destruct (announce_persists_then_announces fresh_api now now) as (Htr & Hfile & _).
  - vm_compute. discriminate.
  - split; [exact Htr|exact Hfile].
Defined.

(** ** The outbound queue and the dispatcher *)

Section DispatchFacts.

Import Dispatch.

Context {Identity World : Type}.
Variable TRUNCATED_HASHLENGTH : Z.
Variable recall : bytes -> option Identity.

Implicit Types s : LXMFAPI (Identity := Identity) (World := World).
Implicit Types sys : System (Identity := Identity) (World := World).
Implicit Types lxm : LXMessage (Identity := Identity).

Local Arguments built : simpl never.

Lemma handed_app (tr1 tr2 : list (Call (Identity := Identity))) :
  handed (tr1 ++ tr2) = handed tr1 ++ handed tr2.
Proof. apply omap_app. Qed.

Lemma puts_app (tr1 tr2 : list (Call (Identity := Identity))) :
  puts (tr1 ++ tr2) = puts tr1 ++ puts tr2.
Proof. apply omap_app. Qed.

(** [_announce] touches neither the queue nor the items of the trace. *)
Lemma announce_outbound s t t' :
  queue (_announce t t' s) = queue s
  /\ local (_announce t t' s) = local s
  /\ handed (trace (_announce t t' s)) = handed (trace s)
  /\ puts (trace (_announce t t' s)) = puts (trace s).
Proof.
  unfold _announce. case_match; simpl; [done|].
  rewrite <- app_assoc, handed_app, puts_app. simpl. by rewrite !app_nil_r.
Qed.

(** One iteration of the dispatcher: the front item of the queue, if there
    is one, is handed to the router, and only that one. *)
Lemma process_queue_outbound s t t' :
  queue (process_queue t t' s) = drop 1 (queue s)
  /\ local (process_queue t t' s) = local s
  /\ handed (trace (process_queue t t' s)) = handed (trace s) ++ take 1 (queue s)
  /\ puts (trace (process_queue t t' s)) = puts (trace s).
Proof.
  unfold process_queue.
  destruct (queue s) as [|lxm rest] eqn:Hq.
  - destruct (announce_outbound s t t') as (-> & -> & -> & ->).
    by rewrite Hq, app_nil_r.
  - destruct (announce_outbound (call (HandleOutbound lxm) (set_queue rest s)) t t')
      as (-> & -> & -> & ->).
    simpl. rewrite handed_app, puts_app. simpl. by rewrite app_nil_r, drop_0.
Qed.

(** [put] with room, and without. *)
Lemma put_room lxm s :
  (length (queue s) < maxsize)%nat ->
  put lxm s = (call (Put lxm) (set_queue (queue s ++ [lxm]) s), Returned).
Proof. intros H. unfold put. apply Nat.ltb_lt in H. by rewrite H. Qed.

Lemma put_full lxm s :
  (maxsize <= length (queue s))%nat -> put lxm s = (s, Blocked lxm).
Proof. intros H. unfold put. apply Nat.ltb_ge in H. by rewrite H. Qed.

(** [send] either gets as far as [put] with the item [built] describes, or
    it leaves queue and items of the trace alone and returns or raises. *)
Lemma send_outbound d m t s :
  match built TRUNCATED_HASHLENGTH recall (local s) (Send d m t) with
  | Some lxm =>
      exists s0, queue s0 = queue s /\ trace s0 = trace s /\ local s0 = local s
        /\ send TRUNCATED_HASHLENGTH recall d m t s = put lxm s0
  | None =>
      exists s' c, send TRUNCATED_HASHLENGTH recall d m t s = (s', c)
        /\ (forall lxm, c ≠ Blocked lxm)
        /\ queue s' = queue s /\ local s' = local s
        /\ handed (trace s') = handed (trace s)
        /\ puts (trace s') = puts (trace s)
  end.
Proof.
  unfold built, send. destruct (fromhex d) as [h|]; simpl; [|by eauto 10].
  destruct (Z.eqb_spec (Z.of_nat (length h)) (TRUNCATED_HASHLENGTH / 8)) as [Heq|Hne].
  - rewrite option_guard_True by done. simpl.
    destruct (recall h) as [id|]; simpl.
    + destruct (encode_utf8 t) as [title_octets|]; simpl; [|by eauto 10].
      destruct (encode_utf8 m) as [content_octets|]; simpl; [|by eauto 10].
      exists s. done.
    + eexists _, _. split; [done|]. split; [done|]. simpl.
      rewrite handed_app, puts_app. simpl. by rewrite !app_nil_r.
  - rewrite option_guard_False by done. simpl. by eauto 10.
Qed.

Lemma step_invariant local_hash brought sys ev :
  outbound_invariant local_hash brought sys ->
  outbound_invariant local_hash
    (brought ++ option_list (built TRUNCATED_HASHLENGTH recall local_hash ev)) (step TRUNCATED_HASHLENGTH recall sys ev).
Proof.
  intros (Hloc & Hlen & Hfifo & Hperm). destruct ev as [d m t|i|t t']; simpl.
  - pose proof (send_outbound d m t (api sys)) as Hsend. rewrite Hloc in Hsend.
    destruct (built _ _ local_hash (Send d m t)) as [lxm|]; simpl.
    + destruct Hsend as (s0 & Hq0 & Ht0 & Hl0 & ->).
      destruct (Nat.ltb_spec (length (queue s0)) maxsize) as [Hroom|Hfull].
      * rewrite put_room by done. unfold outbound_invariant. simpl.
        rewrite Hq0, Ht0, Hl0, length_app, handed_app, puts_app. simpl.
        rewrite Hq0 in Hroom. split_and!; [done|lia| |].
        -- by rewrite app_nil_r, app_assoc, Hfifo.
        -- rewrite <- Hperm, <- !app_assoc. apply Permutation_app_head.
           apply Permutation_app_comm.
      * rewrite put_full by done. unfold outbound_invariant. simpl.
        rewrite Hq0, Ht0, Hl0. split_and!; [done..|].
        by rewrite app_assoc, Hperm.
    + destruct Hsend as (s' & c & -> & Hc & Hq & Hl & Hh & Hp).
      destruct c as [|e|lxm]; [| |by destruct (Hc lxm)];
        unfold outbound_invariant; simpl;
        rewrite Hq, Hl, Hh, Hp, app_nil_r; done.
  - rewrite app_nil_r.
    destruct (waiting sys !! i) as [lxm|] eqn:Hi; [|done].
    destruct (Nat.ltb_spec (length (queue (api sys))) maxsize) as [Hroom|Hfull].
    + rewrite put_room by done. unfold outbound_invariant. simpl.
      rewrite length_app, handed_app, puts_app. simpl.
      split_and!; [done|lia| |].
      * by rewrite app_nil_r, app_assoc, Hfifo.
      * rewrite <- Hperm, <- app_assoc. apply Permutation_app_head.
        simpl. symmetry. by apply delete_Permutation.
    + rewrite put_full by done. done.
  - rewrite app_nil_r.
    destruct (process_queue_outbound (api sys) t t') as (Hq & Hl & Hh & Hp).
    unfold outbound_invariant. simpl. rewrite Hq, Hl, Hh, Hp.
    split_and!; [done| | |done].
    + rewrite length_drop. lia.
    + by rewrite <- app_assoc, take_drop.
Qed.

Lemma run_invariant evs : forall local_hash brought sys,
  outbound_invariant local_hash brought sys ->
  outbound_invariant local_hash
    (brought ++ omap (built TRUNCATED_HASHLENGTH recall local_hash) evs) (run TRUNCATED_HASHLENGTH recall sys evs).
Proof.
  induction evs as [|ev evs IH]; intros local_hash brought sys Hinv; simpl.
  { by rewrite app_nil_r. }
  apply (step_invariant _ _ _ ev) in Hinv. apply IH in Hinv.
  destruct (built _ _ local_hash ev); simpl in *; [|by rewrite app_nil_r in Hinv].
  by rewrite <- app_assoc in Hinv.
Qed.

Lemma boot_invariant local_hash file immediately t t' :
  outbound_invariant local_hash []
    (boot (Identity := Identity) (World := World) local_hash file immediately t t').
Proof.
  unfold outbound_invariant, boot. simpl.
  destruct (announce_outbound
              (__init__ (Identity := Identity) (World := World) local_hash file immediately) t t')
    as (-> & -> & -> & ->).
  simpl. split_and!; [done|lia|done|done].
Qed.

End DispatchFacts.

Section OutboundQueue.

Import Dispatch.

Context {Identity World : Type}.
Variable TRUNCATED_HASHLENGTH : Z.
Variable recall : bytes -> option Identity.

Local Arguments built : simpl never.

(** C6.  The queue is built with capacity 5.  After any interleaving of
    producers calling [send], waiting producers being woken and iterations
    of the dispatcher, starting from the constructed object: the queue holds
    at most 5 items; the items handed to the router so far, followed by the
    items in the queue, are exactly the items whose [put] completed, in that
    order; every item a producer brought to the queue has either been put or
    is held by a producer waiting in [put].  A producer that arrives at a
    full queue waits with its item, queue and trace unchanged; once there is
    room and it is woken, its item goes to the back of the queue.  One
    iteration of the dispatcher hands over the front item, if any, and no
    other. *)
Theorem outbound_queue_bounded_fifo local_hash file immediately t t' (evs : list Event) :
  let sys : System (Identity := Identity) (World := World) :=
    run TRUNCATED_HASHLENGTH recall (boot local_hash file immediately t t') evs in
  let next := step TRUNCATED_HASHLENGTH recall sys in
  maxsize = 5%nat
  /\ (length (queue (api sys)) <= 5)%nat
  /\ handed (trace (api sys)) ++ queue (api sys) = puts (trace (api sys))
  /\ puts (trace (api sys)) ++ waiting sys
       ≡ₚ omap (built TRUNCATED_HASHLENGTH recall local_hash) evs
  /\ (forall d m title lxm,
        built TRUNCATED_HASHLENGTH recall local_hash (Send d m title) = Some lxm ->
        length (queue (api sys)) = 5%nat ->
        queue (api (next (Send d m title))) = queue (api sys)
        /\ trace (api (next (Send d m title))) = trace (api sys)
        /\ waiting (next (Send d m title)) = waiting sys ++ [lxm])
  /\ (forall i lxm,
        waiting sys !! i = Some lxm ->
        (length (queue (api sys)) < 5)%nat ->
        queue (api (next (Wake i))) = queue (api sys) ++ [lxm]
        /\ waiting (next (Wake i)) = delete i (waiting sys))
  /\ (forall a b,
        handed (trace (api (next (Tick a b))))
          = handed (trace (api sys)) ++ take 1 (queue (api sys))
        /\ queue (api (next (Tick a b))) = drop 1 (queue (api sys))
        /\ waiting (next (Tick a b)) = waiting sys).
Proof.
  intros sys next.
  pose proof (run_invariant TRUNCATED_HASHLENGTH recall evs local_hash [] _
                (boot_invariant (World := World) local_hash file immediately t t'))
    as (Hloc & Hlen & Hfifo & Hperm).
  fold sys in Hloc, Hlen, Hfifo, Hperm. simpl in Hperm.
  split_and!; try done.
  - intros d m title lxm Hb Hfull. subst next. simpl.
    pose proof (send_outbound TRUNCATED_HASHLENGTH recall d m title (api sys)) as Hsend.
    rewrite Hloc, Hb in Hsend. destruct Hsend as (s0 & Hq0 & Ht0 & _ & ->).
    rewrite put_full by (rewrite Hq0, Hfull; done). by simpl.
  - intros i lxm Hi Hroom. subst next. simpl. rewrite Hi.
    by rewrite put_room.
  - intros a b. subst next. simpl.
    destruct (process_queue_outbound (api sys) a b) as (Hq & _ & Hh & _).
    done.
Qed.

End OutboundQueue.

Lemma outbound_queue_bounded_fifo_witness :
  let full := Dispatch.run 128 every_identity booted (sends ["1"; "2"; "3"; "4"; "5"]) in
  let sixth := Dispatch.step 128 every_identity full (Dispatch.Send an_address "6" "Reply") in
  let drained := Dispatch.step 128 every_identity sixth
                   (Dispatch.Tick (6800000043 # 4)%Q (6800000043 # 4)%Q) in
  let woken := Dispatch.step 128 every_identity drained (Dispatch.Wake 0) in
  queue (Dispatch.api sixth) = queue (Dispatch.api full)
  /\ lxm_content <$> Dispatch.waiting sixth = ["6"]
  /\ lxm_content <$> Dispatch.handed (trace (Dispatch.api drained)) = ["1"]
  /\ lxm_content <$> queue (Dispatch.api woken) = ["2"; "3"; "4"; "5"; "6"]
  /\ Dispatch.waiting woken = [].
Proof.
  intros full sixth drained woken.
  destruct (outbound_queue_bounded_fifo (World := unit) 128 every_identity
              [x01; x02] None false (6800000003 # 4)%Q (6800000003 # 4)%Q
              (sends ["1"; "2"; "3"; "4"; "5"]))
    as (_ & _ & _ & _ & Hwait & _ & _).
  destruct (Hwait an_address "6" "Reply" _
              ltac:(vm_compute; reflexivity) ltac:(vm_compute; reflexivity))
    as (Hq & _ & Hw).
  destruct (outbound_queue_bounded_fifo (World := unit) 128 every_identity
              [x01; x02] None false (6800000003 # 4)%Q (6800000003 # 4)%Q
              (sends ["1"; "2"; "3"; "4"; "5"; "6"]
               ++ [Dispatch.Tick (6800000043 # 4)%Q (6800000043 # 4)%Q]))
    as (_ & _ & _ & _ & _ & Hwake & _).
  destruct (Hwake 0%nat _ ltac:(vm_compute; reflexivity)) as (Hq' & Hw');
    [vm_compute; lia|].
  split_and!.
  - exact Hq.
  - etrans; [apply (f_equal (fmap lxm_content) Hw)|vm_compute; reflexivity].
  - vm_compute. reflexivity.
  - etrans; [apply (f_equal (fmap lxm_content) Hq')|vm_compute; reflexivity].
  - etrans; [apply Hw'|vm_compute; reflexivity].
Defined.

(* ===================================================================== *)
(** * Further properties of the source *)
(* ===================================================================== *)

(** ** Addresses: [hexrep] and [fromhex] *)

Lemma fromhex_hexrep_byte (c : byte) (rest : string) :
  fromhex (hexrep_byte c +:+ rest) = cons c <$> fromhex rest.
Proof. destruct c; reflexivity. Qed.

(** What [RNS.hexrep] prints, [bytes.fromhex] reads back. *)
Lemma fromhex_hexrep (data : bytes) : fromhex (hexrep data) = Some data.
Proof.
  induction data as [|c data IH]; [done|].
  simpl hexrep. rewrite fromhex_hexrep_byte, IH. done.
Qed.

Lemma hexrep_inj (a b : bytes) : hexrep a = hexrep b -> a = b.
Proof.
  intros H. apply (f_equal fromhex) in H.
  rewrite !fromhex_hexrep in H. by inversion H.
Qed.

Section SendMore.

Context {Identity World : Type}.
Variable TRUNCATED_HASHLENGTH : Z.
Variable recall : bytes -> option Identity.

Implicit Types s : LXMFAPI (Identity := Identity) (World := World).

(** What [encode_utf8] returns is the text itself. *)
Lemma encode_utf8_Some text octets : encode_utf8 text = Some octets -> octets = text.
Proof. unfold encode_utf8. case_match; congruence. Qed.

(** [send] with a destination that parses, has the right length and is
    known, and with title and content that can be encoded, is [put] of the
    item for the recalled identity. *)
Lemma send_known d m t s h id :
  fromhex d = Some h ->
  Z.of_nat (length h) = TRUNCATED_HASHLENGTH / 8 ->
  recall h = Some id ->
  is_Some (encode_utf8 t) ->
  is_Some (encode_utf8 m) ->
  send TRUNCATED_HASHLENGTH recall d m t s
  = put {| lxm_destination :=
             {| dest_identity := id; dest_direction := OUT;
                dest_type := SINGLE; dest_app_name := "lxmf";
                dest_aspects := ["delivery"] |};
           lxm_source := local s; lxm_content := m; lxm_title := t;
           lxm_desired_method := DIRECT;
           lxm_try_propagation_on_fail := true |} s.
Proof.
  intros Hh Hlen Hr [t' Ht] [m' Hm]. unfold send. rewrite Hh.
  apply Z.eqb_eq in Hlen. rewrite Hlen, Hr. simpl. rewrite Ht, Hm.
  apply encode_utf8_Some in Ht, Hm. by subst.
Qed.

(** The same destination with a title or a content that cannot be encoded:
    the constructor raises, whatever the queue holds. *)
Lemma send_unencodable d m t s h id :
  fromhex d = Some h ->
  Z.of_nat (length h) = TRUNCATED_HASHLENGTH / 8 ->
  recall h = Some id ->
  encode_utf8 t = None \/ encode_utf8 m = None ->
  send TRUNCATED_HASHLENGTH recall d m t s = (s, Raised UnicodeEncodeError).
Proof.
  intros Hh Hlen Hr Hbad. unfold send. rewrite Hh.
  apply Z.eqb_eq in Hlen. rewrite Hlen, Hr. simpl.
  destruct Hbad as [-> | ->]; [done|]. by destruct (encode_utf8 t).
Qed.

(** X1.  [POST /send] with a destination that parses to the network's
    address length and whose identity is known, with a title and a message
    that can be encoded, while the queue has room: the answer is 200
    "message queued", exactly one item is put at the back of the queue, for
    the recalled identity and the names "lxmf" and "delivery", with the
    request's text and title, method DIRECT and propagation on failure set,
    and the status shows one more queued item. *)
Theorem send_message_queues_valid_request req s h id :
  fromhex (destination req) = Some h ->
  Z.of_nat (length h) = TRUNCATED_HASHLENGTH / 8 ->
  recall h = Some id ->
  is_Some (encode_utf8 (title req)) ->
  is_Some (encode_utf8 (message req)) ->
  (length (queue s) < 5)%nat ->
  let lxm := {| lxm_destination :=
                  {| dest_identity := id; dest_direction := OUT;
                     dest_type := SINGLE; dest_app_name := "lxmf";
                     dest_aspects := ["delivery"] |};
                lxm_source := local s; lxm_content := message req;
                lxm_title := title req; lxm_desired_method := DIRECT;
                lxm_try_propagation_on_fail := true |} in
  let result := send_message TRUNCATED_HASHLENGTH recall req s in
  result.2 = Some {| status_code := 200; detail := "message queued" |}
  /\ queue result.1 = queue s ++ [lxm]
  /\ trace result.1 = trace s ++ [Put lxm]
  /\ (get_status result.1).1.1 = S (get_status s).1.1
  /\ receipts result.1 = receipts s
  /\ delivery_callbacks result.1 = delivery_callbacks s.
Proof.
  intros Hh Hlen Hr Ht Hm Hroom lxm result. subst result. unfold send_message.
  rewrite (send_known _ _ _ s h id) by done. fold lxm.
  unfold put. apply Nat.ltb_lt in Hroom. unfold maxsize. rewrite Hroom. simpl.
  split_and!; try done. rewrite length_app. simpl. lia.
Qed.

(** X2.  The same request while the queue holds 5 items: the call stays
    in [put], so the handler gives no answer, and object, queue and trace
    are exactly as before. *)
Theorem send_message_waits_on_full_queue req s h id :
  fromhex (destination req) = Some h ->
  Z.of_nat (length h) = TRUNCATED_HASHLENGTH / 8 ->
  recall h = Some id ->
  is_Some (encode_utf8 (title req)) ->
  is_Some (encode_utf8 (message req)) ->
  (5 <= length (queue s))%nat ->
  send_message TRUNCATED_HASHLENGTH recall req s = (s, None).
Proof.
  intros Hh Hlen Hr Ht Hm Hfull. unfold send_message.
  rewrite (send_known _ _ _ s h id) by done.
  unfold put. apply Nat.ltb_ge in Hfull. unfold maxsize. by rewrite Hfull.
Qed.

(** X3.  [POST /send] answers 400 in one case only: the destination
    parses, has the network's address length and is known, and the title or
    the message cannot be encoded; the constructor of the message then
    raises before anything is put, whatever the queue holds, and the object
    is unchanged.  In every other case the answer is 200 "message queued",
    with the queue as it was or one item longer at the back, or there is no
    answer yet because the queue holds 5 items. *)
Theorem send_message_answers_400_only_for_unencodable_text req s :
  let result := send_message TRUNCATED_HASHLENGTH recall req s in
  (forall h id,
     fromhex (destination req) = Some h ->
     Z.of_nat (length h) = TRUNCATED_HASHLENGTH / 8 ->
     recall h = Some id ->
     encode_utf8 (title req) = None \/ encode_utf8 (message req) = None ->
     status_code <$> result.2 = Some 400 /\ result.1 = s)
  /\ ((status_code <$> result.2 = Some 400
       /\ exists h id,
            fromhex (destination req) = Some h
            /\ Z.of_nat (length h) = TRUNCATED_HASHLENGTH / 8
            /\ recall h = Some id
            /\ (encode_utf8 (title req) = None \/ encode_utf8 (message req) = None))
      \/ (result.2 = Some {| status_code := 200; detail := "message queued" |}
          /\ (queue result.1 = queue s
              \/ exists lxm, queue result.1 = queue s ++ [lxm]))
      \/ (result.2 = None /\ result.1 = s /\ (5 <= length (queue s))%nat)).
Proof.
  intros result. subst result. split.
  - intros h id Hh Hlen Hr Hbad. unfold send_message.
    by rewrite (send_unencodable _ _ _ s h id).
  - unfold send_message, send.
    destruct (fromhex (destination req)) as [h|]; simpl; [|by right; left; auto].
    destruct (Z.eqb_spec (Z.of_nat (length h)) (TRUNCATED_HASHLENGTH / 8))
      as [Hlen|Hlen]; simpl; [|by right; left; auto].
    destruct (recall h) as [id|] eqn:Hr; simpl; [|by right; left; auto].
    destruct (encode_utf8 (title req)) as [t|] eqn:Ht; simpl.
    2:{ left. split; [done|]. exists h, id. auto. }
    destruct (encode_utf8 (message req)) as [m|] eqn:Hm; simpl.
    2:{ left. split; [done|]. exists h, id. auto. }
    unfold put.
    destruct (Nat.ltb_spec (length (queue s)) maxsize) as [Hroom|Hfull]; simpl.
    + right. left. split; [done|]. right. eexists. reflexivity.
    + right. right. done.
Qed.

(** X4.  [reply] on the namespace of an inbound message is [send] to the
    sender: the address the namespace holds parses back to the message's
    source hash, so the identity is recalled for that hash.  When the hash
    has the network's length, an identity is recalled for it, the text can
    be encoded and the queue has room, one item for the recalled identity,
    with the title "Reply", is put at the back of the queue. *)
Theorem reply_reaches_sender (m : LXMessageIn) text body s id :
  Z.of_nat (length (source_hash m)) = TRUNCATED_HASHLENGTH / 8 ->
  recall (source_hash m) = Some id ->
  is_Some (encode_utf8 body) ->
  (length (queue s) < 5)%nat ->
  let lxm := {| lxm_destination :=
                  {| dest_identity := id; dest_direction := OUT;
                     dest_type := SINGLE; dest_app_name := "lxmf";
                     dest_aspects := ["delivery"] |};
                lxm_source := local s; lxm_content := body;
                lxm_title := "Reply"; lxm_desired_method := DIRECT;
                lxm_try_propagation_on_fail := true |} in
  let result := reply TRUNCATED_HASHLENGTH recall (namespace m text) body s in
  fromhex (msg_reply (namespace m text)) = Some (source_hash m)
  /\ result.2 = Returned
  /\ queue result.1 = queue s ++ [lxm]
  /\ trace result.1 = trace s ++ [Put lxm].
Proof.
  intros Hlen Hr Hbody Hroom lxm result. subst result.
  split; [apply fromhex_hexrep|].
  unfold reply. simpl msg_reply.
  rewrite (send_known _ _ _ s (source_hash m) id);
    [|apply fromhex_hexrep|done|done|by eexists|done].
  fold lxm. unfold put. apply Nat.ltb_lt in Hroom. unfold maxsize.
  rewrite Hroom. done.
Qed.

End SendMore.

Lemma send_message_queues_valid_request_witness :
  let req := {| destination := an_address; message := "hi"; title := "Re" |} in
  let result := send_message 128 every_identity req fresh_api in
  result.2 = Some {| status_code := 200; detail := "message queued" |}
  /\ lxm_content <$> queue result.1 = ["hi"]
  /\ (get_status result.1).1.1 = 1%nat.
Proof.
  intros req result.
  destruct (send_message_queues_valid_request (World := unit) 128 every_identity
              req fresh_api
              [x00; x11; x22; x33; x44; x55; x66; x77;
               x88; x99; xaa; xbb; xcc; xdd; xee; xff] tt)
    as (Hr & Hq & _ & Hs & _).
  - vm_compute. reflexivity.
  - vm_compute. reflexivity.
  - reflexivity.
  - vm_compute. by eexists.
  - vm_compute. by eexists.
  - vm_compute. lia.
  - split_and!.
    + exact Hr.
    + etrans; [apply (f_equal (fmap lxm_content) Hq)|vm_compute; reflexivity].
    + etrans; [apply Hs|vm_compute; reflexivity].
Defined.

Lemma send_message_waits_on_full_queue_witness :
  let full := Dispatch.api
                (Dispatch.run 128 every_identity booted
                   (sends ["1"; "2"; "3"; "4"; "5"])) in
  let req := {| destination := an_address; message := "6"; title := "Reply" |} in
  send_message 128 every_identity req full = (full, None).
Proof.
  intros full req.
  apply (send_message_waits_on_full_queue 128 every_identity req full
           [x00; x11; x22; x33; x44; x55; x66; x77;
            x88; x99; xaa; xbb; xcc; xdd; xee; xff] tt).
  - vm_compute. reflexivity.
  - vm_compute. reflexivity.
  - reflexivity.
  - vm_compute. by eexists.
  - vm_compute. by eexists.
  - vm_compute. lia.
Defined.

Lemma send_message_answers_400_only_for_unencodable_text_witness :
  let req := {| destination := an_address; message := lone_surrogate;
                title := "Reply" |} in
  let result := send_message 128 every_identity req fresh_api in
  status_code <$> result.2 = Some 400 /\ result.1 = fresh_api.
Proof.
  intros req result.
  destruct (send_message_answers_400_only_for_unencodable_text (World := unit)
              128 every_identity req fresh_api) as [H400 _].
  apply (H400 [x00; x11; x22; x33; x44; x55; x66; x77;
               x88; x99; xaa; xbb; xcc; xdd; xee; xff] tt).
  - vm_compute. reflexivity.
  - vm_compute. reflexivity.
  - reflexivity.
  - right. vm_compute. reflexivity.
Defined.

Lemma reply_reaches_sender_witness :
  let result := reply 128 every_identity (namespace from_peer "hi") "thanks" fresh_api in
  result.2 = Returned
  /\ (fun lxm => (dest_identity (lxm_destination lxm), lxm_title lxm,
                  lxm_content lxm)) <$> queue result.1
     = [(tt, "Reply", "thanks")].
Proof.
  intros result.
  destruct (reply_reaches_sender (World := unit) 128 every_identity
              from_peer "hi" "thanks" fresh_api tt) as (_ & Hr & Hq & _).
  - vm_compute. reflexivity.
  - reflexivity.
  - vm_compute. by eexists.
  - vm_compute. lia.
  - split; [exact Hr|].
    etrans; [apply (f_equal (fmap _) Hq)|vm_compute; reflexivity].
Defined.

(** ** More on the receipt list *)

Section ReceiptsMore.

Context {Identity World : Type}.

Implicit Types s : LXMFAPI (Identity := Identity) (World := World).
Implicit Types w : World.
Implicit Types m : LXMessageIn.

Lemma elem_of_append_receipt x r rs :
  x ∈ append_receipt r rs -> x = r \/ x ∈ rs.
Proof.
  unfold append_receipt. intros Hin.
  assert (x ∈ rs ++ [r]) as Hin'.
  { case_match; [by eapply subseteq_drop|done]. }
  set_solver.
Qed.

Lemma append_receipt_NoDup r rs :
  NoDup rs -> r ∉ rs -> NoDup (append_receipt r rs).
Proof.
  intros Hnd Hr. unfold append_receipt.
  assert (NoDup (rs ++ [r])) as Hnd'.
  { apply NoDup_app. split_and!; [done|set_solver|apply NoDup_singleton]. }
  case_match; [|done].
  eapply sublist_NoDup; [done|apply sublist_drop].
Qed.

Lemma seen_after_NoDup ids : forall rs, NoDup rs -> NoDup (seen_after ids rs).
Proof.
  induction ids as [|x ids IH]; intros rs Hnd; [done|].
  rewrite seen_after_cons. apply IH.
  case_bool_decide; [done|by apply append_receipt_NoDup].
Qed.

(** X5.  A message is never taken for a duplicate of a message with
    another hash: if its receipt id was not on the list before a message
    with a different hash came in, it is not on the list afterwards either,
    so that its own delivery still runs the loop over the callbacks. *)
Theorem other_hash_is_not_a_duplicate s w m m' :
  hash m' ≠ hash m ->
  hexrep (hash m') ∉ receipts s ->
  let first := _message_received m s w in
  (hexrep (hash m') ∉ receipts first.1.1)
  /\ forall w',
       (_message_received m' first.1.1 w').1.2
       = (for_callback m' (hexrep (source_hash m')) (hexrep (hash m'))
            (delivery_callbacks s) w').1.
Proof.
  intros Hne Hnew first.
  assert (hexrep (hash m') ∉ receipts first.1.1) as Hstill.
  { subst first. destruct (decide (hexrep (hash m) ∈ receipts s)) as [Hin|Hnin].
    - by rewrite message_received_duplicate_receipts.
    - rewrite message_received_new_receipts by done.
      intros [Heq|Hin]%elem_of_append_receipt; [|done].
      by apply hexrep_inj in Heq. }
  split; [done|]. intros w'.
  rewrite message_received_new by done. simpl.
  subst first. destruct (decide (hexrep (hash m) ∈ receipts s)) as [Hin|Hnin].
  - by rewrite message_received_duplicate.
  - by rewrite message_received_new.
Qed.

(** X6.  The receipt list never holds an id twice: if it has no repeated
    entry, it has none after any series of deliveries, whatever the
    callbacks do. *)
Theorem receipts_never_repeat s w (ms : list LXMessageIn) :
  NoDup (receipts s) ->
  NoDup (receipts (deliver_all ms s w).1).
Proof.
  intros Hnd. rewrite deliver_all_receipts. by apply seen_after_NoDup.
Qed.

(** X7.  After messages with pairwise distinct hashes, none of them listed
    before, the list holds the most recent 100 ids, the older ones first:
    the last 100 entries of the old list followed by the new ids. *)
Theorem receipts_hold_latest_hundred s w (ms : list LXMessageIn) :
  let ids := (fun m => hexrep (hash m)) <$> ms in
  NoDup ids ->
  (forall x, x ∈ ids -> x ∉ receipts s) ->
  (length (receipts s) <= 100)%nat ->
  receipts (deliver_all ms s w).1
  = drop (length (receipts s ++ ids) - 100) (receipts s ++ ids).
Proof.
  intros ids Hnd Hfresh Hlen. rewrite deliver_all_receipts.
  by apply seen_after_fresh.
Qed.

End ReceiptsMore.

Lemma other_hash_is_not_a_duplicate_witness :
  let s := api_with [Ws.message_callback 0] in
  let first := _message_received hello s one_connection in
  let second := _message_received (numbered 7) first.1.1 first.1.2 in
  (hexrep (hash (numbered 7)) ∉ receipts first.1.1)
  /\ second.1.2 !! 0%nat
     = Some [hello_event;
             {| Ws.ev_sender := "aabb"; Ws.ev_content := "hi"; Ws.ev_hash := "07" |}].
Proof.
  intros s first second.
  destruct (other_hash_is_not_a_duplicate s one_connection hello (numbered 7))
    as (Hnew & Hloop).
  - vm_compute. discriminate.
  - vm_compute. intros H. inversion H.
  - split; [exact Hnew|].
    etrans; [apply (f_equal (fun q => q !! 0%nat) (Hloop first.1.2))|].
    vm_compute. reflexivity.
Defined.

Lemma receipts_never_repeat_witness :
  NoDup (receipts (deliver_all (hundred_messages ++ [hello; numbered 7; hello])
                     (api_with [Ws.message_callback 0]) one_connection).1).
Proof.
  apply (receipts_never_repeat (api_with [Ws.message_callback 0]) one_connection).
  vm_compute. apply NoDup_nil_2.
Defined.

Lemma receipts_hold_latest_hundred_witness :
  receipts (deliver_all (hello :: hundred_messages)
              (api_with [Ws.message_callback 0]) one_connection).1
  = (fun m => hexrep (hash m)) <$> hundred_messages.
Proof.
  etrans.
  - apply (receipts_hold_latest_hundred (api_with [Ws.message_callback 0])
             one_connection (hello :: hundred_messages)).
    + compute_done.
    + apply Forall_forall. compute_done.
    + vm_compute. lia.
  - vm_compute. reflexivity.
Defined.

(** ** More on [_announce] and the dispatcher *)

Section AnnounceMore.

Import Dispatch.

Context {Identity World : Type}.
Variable TRUNCATED_HASHLENGTH : Z.
Variable recall : bytes -> option Identity.

Implicit Types s : LXMFAPI (Identity := Identity) (World := World).
Implicit Types sys : System (Identity := Identity) (World := World).

(** X8.  With a clock that is not negative, [_announce] announces exactly
    when the clock itself, not only its whole second, has reached the
    deadline in the file (1 when there is no file); otherwise it leaves
    file and trace alone. *)
Theorem announce_exactly_when_deadline_reached s now_check now_write :
  (0 <= now_check)%Q ->
  let deadline := default 1 (announce_file s) in
  let s' := _announce now_check now_write s in
  ((inject_Z deadline <= now_check)%Q ->
     trace s' = trace s
                ++ [WriteAnnounce (int_of_float now_write + announce_time s);
                    Announce])
  /\ (~ (inject_Z deadline <= now_check)%Q ->
     trace s' = trace s /\ announce_file s' = announce_file s).
Proof.
  intros Hpos deadline s'. subst s'. split.
  - intros Hdue. apply int_of_float_reached in Hdue; [|done].
    by destruct (announce_due s now_check now_write Hdue) as (-> & _).
  - intros Hnot. rewrite announce_recent; [done|].
    destruct (Z.lt_ge_cases (int_of_float now_check) deadline) as [Hlt|Hge]; [done|].
    exfalso. apply Hnot. by apply int_of_float_reached.
Qed.

(** X9.  Construction with [announce_immediately] discards the stored
    deadline: the announce of [__init__] goes out whatever the file held,
    as soon as the clock shows second 1 or later.  Without the flag, a
    stored deadline that is still ahead suppresses it and stays in the
    file. *)
Theorem boot_announces_immediately_on_request local_hash file t t' :
  (1 <= int_of_float t ->
     trace (api (boot (Identity := Identity) (World := World)
                   local_hash file true t t'))
     = [WriteAnnounce (int_of_float t' + 600); Announce])
  /\ (forall d, int_of_float t < d ->
        trace (api (boot (Identity := Identity) (World := World)
                      local_hash (Some d) false t t')) = []
        /\ announce_file (api (boot (Identity := Identity) (World := World)
                                 local_hash (Some d) false t t')) = Some d).
Proof.
  split.
  - intros Hone. unfold boot. simpl.
    set (s0 := __init__ local_hash file true).
    destruct (announce_due s0 t t') as (-> & _); [simpl; lia|done].
  - intros d Hlt. unfold boot. simpl.
    rewrite announce_recent; [done|]. simpl. lia.
Qed.

Lemma written_app (tr1 tr2 : list (Call (Identity := Identity))) :
  written (tr1 ++ tr2) = written tr1 ++ written tr2.
Proof. apply omap_app. Qed.

Lemma announce_calls_app (tr1 tr2 : list (Call (Identity := Identity))) :
  announce_calls (tr1 ++ tr2) = announce_calls tr1 ++ announce_calls tr2.
Proof. apply omap_app. Qed.

(** [put] and [send] make no call of [_announce] and leave file and
    interval alone. *)
Lemma put_announce_frame lxm s :
  announce_calls (trace (put lxm s).1) = announce_calls (trace s)
  /\ written (trace (put lxm s).1) = written (trace s)
  /\ announce_file (put lxm s).1 = announce_file s
  /\ announce_time (put lxm s).1 = announce_time s.
Proof.
  unfold put. case_match; simpl; [|done].
  rewrite announce_calls_app, written_app. simpl. by rewrite !app_nil_r.
Qed.

Lemma send_announce_frame d m t s :
  let s' := (send TRUNCATED_HASHLENGTH recall d m t s).1 in
  announce_calls (trace s') = announce_calls (trace s)
  /\ written (trace s') = written (trace s)
  /\ announce_file s' = announce_file s
  /\ announce_time s' = announce_time s.
Proof.
  unfold send. destruct (fromhex d) as [h|]; simpl; [|done].
  destruct (negb _); simpl; [done|].
  destruct (recall h) as [id|]; simpl.
  - destruct (encode_utf8 t); [|done].
    destruct (encode_utf8 m); [|done]. apply put_announce_frame.
  - rewrite announce_calls_app, written_app. simpl. by rewrite !app_nil_r.
Qed.

(** Every step but an iteration of the dispatcher. *)
Lemma step_announce_frame sys ev :
  (forall a b, ev ≠ Tick a b) ->
  let sys' := step TRUNCATED_HASHLENGTH recall sys ev in
  announce_calls (trace (api sys')) = announce_calls (trace (api sys))
  /\ written (trace (api sys')) = written (trace (api sys))
  /\ announce_file (api sys') = announce_file (api sys)
  /\ announce_time (api sys') = announce_time (api sys).
Proof.
  intros Hev. destruct ev as [d m t|i|a b]; simpl; [| |by destruct (Hev a b)].
  - pose proof (send_announce_frame d m t (api sys)) as Hf. simpl in Hf.
    by destruct (send _ _ d m t (api sys)) as [s' []].
  - destruct (waiting sys !! i) as [lxm|]; [|done].
    pose proof (put_announce_frame lxm (api sys)) as Hf.
    by destruct (put lxm (api sys)) as [s' []].
Qed.

(** The front item handed over, if any, is no call of [_announce]. *)
Lemma handover_announce_frame s :
  let s' := match queue s with
            | [] => s
            | lxm :: rest => call (HandleOutbound lxm) (set_queue rest s)
            end in
  announce_calls (trace s') = announce_calls (trace s)
  /\ written (trace s') = written (trace s)
  /\ announce_file s' = announce_file s
  /\ announce_time s' = announce_time s.
Proof.
  destruct (queue s); simpl; [done|].
  rewrite announce_calls_app, written_app. simpl. by rewrite !app_nil_r.
Qed.

Lemma announce_paired s t t' :
  paired (trace s) -> paired (trace (_announce t t' s)).
Proof.
  unfold paired, _announce. intros Hp. case_match; simpl; [done|].
  rewrite <- app_assoc, announce_calls_app, written_app, flat_map_app, Hp.
  done.
Qed.

Lemma step_paired sys ev :
  paired (trace (api sys)) ->
  paired (trace (api (step TRUNCATED_HASHLENGTH recall sys ev))).
Proof.
  intros Hp. destruct ev as [d m t|i|a b].
  - destruct (step_announce_frame sys (Send d m t)) as (Ha & Hw & _); [done|].
    unfold paired. by rewrite Ha, Hw.
  - destruct (step_announce_frame sys (Wake i)) as (Ha & Hw & _); [done|].
    unfold paired. by rewrite Ha, Hw.
  - simpl. unfold process_queue. apply announce_paired.
    destruct (handover_announce_frame (api sys)) as (Ha & Hw & _).
    unfold paired. by rewrite Ha, Hw.
Qed.

(** X10.  In every execution from construction on, [__init__]'s own call
    included, the calls of [_announce] in the trace come in pairs: each
    announce directly follows, among them, the write of a deadline, and each
    write is followed by its announce. *)
Theorem every_announce_follows_its_write local_hash file immediately t t'
    (evs : list Event) :
  let sys := run TRUNCATED_HASHLENGTH recall
               (boot (Identity := Identity) (World := World)
                  local_hash file immediately t t') evs in
  announce_calls (trace (api sys))
  = flat_map (fun d => [Some d; None]) (written (trace (api sys))).
Proof.
  intros sys. subst sys.
  assert (paired (trace (api (boot (Identity := Identity) (World := World)
                                local_hash file immediately t t')))) as Hboot.
  { unfold boot. simpl. by apply announce_paired. }
  revert Hboot. generalize (boot (Identity := Identity) (World := World)
                              local_hash file immediately t t').
  induction evs as [|ev evs IH]; intros sys Hp; [done|].
  simpl. apply IH. by apply step_paired.
Qed.

Lemma separated_snoc gap ds d' :
  separated gap ds ->
  (forall d, last ds = Some d -> d + gap <= d') ->
  separated gap (ds ++ [d']).
Proof.
  induction ds as [|a [|b rest] IH]; intros Hsep Hlast; simpl.
  - done.
  - split; [by apply Hlast|done].
  - destruct Hsep as [Hab Hsep]. split; [done|]. apply IH; [done|].
    intros d Hd. by apply Hlast.
Qed.

Lemma announce_deadlines_kept file0 s t t' :
  int_of_float t <= int_of_float t' ->
  deadlines_kept file0 s -> deadlines_kept file0 (_announce t t' s).
Proof.
  intros Hclock (Htime & Hsep & Hfile).
  destruct (Z.lt_ge_cases (int_of_float t) (default 1 (announce_file s))) as [Hlt|Hdue].
  - rewrite announce_recent by done. done.
  - destruct (announce_due s t t' Hdue) as (Htr & Hf & Ht).
    unfold deadlines_kept. rewrite Htr, Hf, Ht, written_app. simpl.
    rewrite app_assoc, last_snoc. split_and!; [done| |done].
    apply separated_snoc; [done|].
    intros d Hd. rewrite <- Hfile in Hd. rewrite Hd in Hdue. simpl in Hdue. lia.
Qed.

Lemma step_deadlines_kept file0 sys ev :
  clock_forward ev ->
  deadlines_kept file0 (api sys) ->
  deadlines_kept file0 (api (step TRUNCATED_HASHLENGTH recall sys ev)).
Proof.
  intros Hclock (Htime & Hsep & Hfile). destruct ev as [d m t|i|a b].
  - destruct (step_announce_frame sys (Send d m t)) as (_ & Hw & Hf & Ht); [done|].
    unfold deadlines_kept. by rewrite Hw, Hf, Ht.
  - destruct (step_announce_frame sys (Wake i)) as (_ & Hw & Hf & Ht); [done|].
    unfold deadlines_kept. by rewrite Hw, Hf, Ht.
  - simpl. unfold process_queue. apply announce_deadlines_kept; [done|].
    destruct (handover_announce_frame (api sys)) as (_ & Hw & Hf & Ht).
    unfold deadlines_kept. by rewrite Hw, Hf, Ht.
Qed.

(** X11.  When the clock does not run backwards between the two readings
    of a call, the deadlines in the file move forward by at least the
    interval of 600 each time: in every execution from construction on, the
    deadline the file held at construction, if it was kept, and the
    deadlines written since are at least 600 apart, in this order, and the
    file holds the last of them. *)
Theorem written_deadlines_are_an_interval_apart local_hash file immediately
    t t' (evs : list Event) :
  int_of_float t <= int_of_float t' ->
  Forall clock_forward evs ->
  let sys := run TRUNCATED_HASHLENGTH recall
               (boot (Identity := Identity) (World := World)
                  local_hash file immediately t t') evs in
  let kept := option_list (if immediately then None else file) in
  separated 600 (kept ++ written (trace (api sys)))
  /\ announce_file (api sys) = last (kept ++ written (trace (api sys))).
Proof.
  intros Hclock Hevs sys kept.
  assert (deadlines_kept (if immediately then None else file)
            (api (boot (Identity := Identity) (World := World)
                    local_hash file immediately t t'))) as Hboot.
  { unfold boot. simpl. apply announce_deadlines_kept; [done|].
    unfold deadlines_kept. simpl. rewrite app_nil_r.
    destruct (if immediately then None else file); done. }
  assert (deadlines_kept (if immediately then None else file) (api sys)) as (_ & Hs & Hf);
    [|done].
  subst sys. revert Hboot.
  generalize (boot (Identity := Identity) (World := World)
                local_hash file immediately t t').
  induction Hevs as [|ev evs Hev Hevs IH]; intros sys Hk; [done|].
  simpl. apply IH. by apply step_deadlines_kept.
Qed.

(** Iterations of the dispatcher in a row, on the outbound side. *)
Lemma ticks_outbound sys (readings : list (Q * Q)) :
  let n := length readings in
  let sys' := run TRUNCATED_HASHLENGTH recall sys
                ((fun p => Tick p.1 p.2) <$> readings) in
  handed (trace (api sys')) = handed (trace (api sys)) ++ take n (queue (api sys))
  /\ queue (api sys') = drop n (queue (api sys))
  /\ puts (trace (api sys')) = puts (trace (api sys))
  /\ waiting sys' = waiting sys.
Proof.
  revert sys. induction readings as [|[a b] readings IH]; intros sys n sys'.
  { subst n sys'. simpl. by rewrite app_nil_r, drop_0. }
  subst n sys'.
  change (run TRUNCATED_HASHLENGTH recall sys
            ((fun p => Tick p.1 p.2) <$> (a, b) :: readings))
    with (run TRUNCATED_HASHLENGTH recall
            (step TRUNCATED_HASHLENGTH recall sys (Tick a b))
            ((fun p => Tick p.1 p.2) <$> readings)).
  destruct (IH (step TRUNCATED_HASHLENGTH recall sys (Tick a b)))
    as (Hh & Hq & Hp & Hw).
  destruct (process_queue_outbound (api sys) a b) as (Hq1 & _ & Hh1 & Hp1).
  rewrite Hh, Hq, Hp, Hw.
  change (api (step TRUNCATED_HASHLENGTH recall sys (Tick a b)))
    with (process_queue a b (api sys)).
  rewrite Hq1, Hh1, Hp1.
  destruct (queue (api sys)) as [|x q].
  - rewrite ?drop_nil, ?take_nil, ?app_nil_r, ?take_nil, ?app_nil_r. simpl. done.
  - simpl. rewrite drop_0, <- app_assoc. done.
Qed.

(** X12.  [n] iterations of the dispatcher in a row hand the first [n]
    items of the queue to the router, in the order of the queue, and leave
    the others queued; nothing is put and no waiting producer is touched. *)
Theorem dispatcher_drains_in_order sys (readings : list (Q * Q)) :
  let n := length readings in
  let sys' := run TRUNCATED_HASHLENGTH recall sys
                ((fun p => Tick p.1 p.2) <$> readings) in
  handed (trace (api sys')) = handed (trace (api sys)) ++ take n (queue (api sys))
  /\ queue (api sys') = drop n (queue (api sys))
  /\ puts (trace (api sys')) = puts (trace (api sys))
  /\ waiting sys' = waiting sys.
Proof. apply ticks_outbound. Qed.

(** X15.  Whatever the producers and the dispatcher did since
    construction, five further iterations of the dispatcher in a row hand
    every queued item to the router, in the order of the queue, and leave
    the queue empty: an item put on the queue is handed over within five
    iterations. *)
Theorem queue_is_empty_after_five_iterations local_hash file immediately t t'
    (evs : list Event) (r1 r2 r3 r4 r5 : Q * Q) :
  let sys := run TRUNCATED_HASHLENGTH recall
               (boot (Identity := Identity) (World := World)
                  local_hash file immediately t t') evs in
  let sys' := run TRUNCATED_HASHLENGTH recall sys
                ((fun p => Tick p.1 p.2) <$> [r1; r2; r3; r4; r5]) in
  queue (api sys') = []
  /\ handed (trace (api sys')) = handed (trace (api sys)) ++ queue (api sys)
  /\ handed (trace (api sys')) = puts (trace (api sys')).
Proof.
  intros sys sys'.
  pose proof (run_invariant TRUNCATED_HASHLENGTH recall evs local_hash [] _
                (boot_invariant (World := World) local_hash file immediately t t'))
    as (_ & Hlen & Hfifo & _).
  fold sys in Hlen, Hfifo.
  destruct (ticks_outbound sys [r1; r2; r3; r4; r5]) as (Hh & Hq & Hp & _).
  fold sys' in Hh, Hq, Hp. simpl length in Hh, Hq.
  unfold maxsize in Hlen.
  rewrite take_ge in Hh by done. rewrite drop_ge in Hq by done.
  split_and!; [done|done|]. by rewrite Hh, Hp, Hfifo.
Qed.

End AnnounceMore.

Lemma announce_exactly_when_deadline_reached_witness :
  let now := (6800000003 # 4)%Q in
  trace (_announce now now fresh_api) = [WriteAnnounce 1700000600; Announce]
  /\ trace (_announce now now (_announce now now fresh_api))
     = [WriteAnnounce 1700000600; Announce].
Proof.
  intros now. split.
  - destruct (announce_exactly_when_deadline_reached fresh_api now now) as [Hdue _];
      [vm_compute; discriminate|].
    apply Hdue. vm_compute. discriminate.
  - destruct (announce_exactly_when_deadline_reached (_announce now now fresh_api) now now)
      as [_ Hnot]; [vm_compute; discriminate|].
    apply Hnot. vm_compute. intros H. apply H. reflexivity.
Defined.

Lemma boot_announces_immediately_on_request_witness :
  let now := (6800000003 # 4)%Q in
  trace (Dispatch.api (Dispatch.boot (Identity := unit) (World := unit)
                         [x01; x02] (Some 1800000000) true now now))
  = [WriteAnnounce 1700000600; Announce]
  /\ trace (Dispatch.api (Dispatch.boot (Identity := unit) (World := unit)
                            [x01; x02] (Some 1800000000) false now now)) = [].
Proof.
  intros now.
  destruct (boot_announces_immediately_on_request (Identity := unit) (World := unit)
              [x01; x02] (Some 1800000000) now now) as [Hnow Hkeep].
  split.
  - apply Hnow. vm_compute. discriminate.
  - apply (Hkeep 1800000000). vm_compute. reflexivity.
Defined.

Lemma written_deadlines_are_an_interval_apart_witness :
  let sys := Dispatch.run 128 every_identity
               (Dispatch.boot (Identity := unit) (World := unit)
                  [x01; x02] (Some 1700000000) false
                  (6800000003 # 4)%Q (6800000003 # 4)%Q)
               [Dispatch.Tick (6800000043 # 4)%Q (6800000043 # 4)%Q;
                Dispatch.Tick (6800002403 # 4)%Q (6800002407 # 4)%Q] in
  separated 600 (1700000000 :: written (trace (Dispatch.api sys)))
  /\ written (trace (Dispatch.api sys)) = [1700000600; 1700001201].
Proof.
  intros sys.
  destruct (written_deadlines_are_an_interval_apart (Identity := unit) (World := unit)
              128 every_identity [x01; x02] (Some 1700000000) false
              (6800000003 # 4)%Q (6800000003 # 4)%Q
              [Dispatch.Tick (6800000043 # 4)%Q (6800000043 # 4)%Q;
               Dispatch.Tick (6800002403 # 4)%Q (6800002407 # 4)%Q])
    as [Hsep _].
  - vm_compute. discriminate.
  - repeat constructor; vm_compute; discriminate.
  - split; [exact Hsep|vm_compute; reflexivity].
Defined.

(** ** The whole process: connections, deliveries, producers, dispatcher *)

Section ServerFacts.

Context {Identity : Type}.
Variable TRUNCATED_HASHLENGTH : Z.
Variable recall : bytes -> option Identity.

Implicit Types s : LXMFAPI (Identity := Identity) (World := Ws.Queues).
Implicit Types st : Server.State (Identity := Identity).
Implicit Types m : LXMessageIn.

Local Arguments Dispatch.built : simpl never.

(** Neither [put], [send] nor the dispatcher touch callbacks or
    receipts. *)
Lemma put_inbound_frame lxm s :
  delivery_callbacks (put lxm s).1 = delivery_callbacks s
  /\ receipts (put lxm s).1 = receipts s.
Proof. unfold put. by case_match. Qed.

Lemma send_inbound_frame d mt t s :
  delivery_callbacks (send TRUNCATED_HASHLENGTH recall d mt t s).1
  = delivery_callbacks s
  /\ receipts (send TRUNCATED_HASHLENGTH recall d mt t s).1 = receipts s.
Proof.
  unfold send. destruct (fromhex d) as [h|]; simpl; [|done].
  destruct (negb _); simpl; [done|].
  destruct (recall h) as [id|]; simpl; [|done].
  destruct (encode_utf8 t); [|done].
  destruct (encode_utf8 mt); [|done]. apply put_inbound_frame.
Qed.

Lemma announce_inbound_frame s t t' :
  delivery_callbacks (_announce t t' s) = delivery_callbacks s
  /\ receipts (_announce t t' s) = receipts s.
Proof. unfold _announce. by case_match. Qed.

Lemma dispatch_step_inbound_frame
    (sys : Dispatch.System (Identity := Identity) (World := Ws.Queues)) ev :
  delivery_callbacks (Dispatch.api (Dispatch.step TRUNCATED_HASHLENGTH recall sys ev))
  = delivery_callbacks (Dispatch.api sys)
  /\ receipts (Dispatch.api (Dispatch.step TRUNCATED_HASHLENGTH recall sys ev))
     = receipts (Dispatch.api sys).
Proof.
  destruct ev as [d mt t|i|a b]; simpl.
  - pose proof (send_inbound_frame d mt t (Dispatch.api sys)) as Hf.
    by destruct (send _ _ d mt t (Dispatch.api sys)) as [s' []].
  - destruct (Dispatch.waiting sys !! i) as [lxm|]; [|done].
    pose proof (put_inbound_frame lxm (Dispatch.api sys)) as Hf.
    by destruct (put lxm (Dispatch.api sys)) as [s' []].
  - unfold process_queue.
    destruct (announce_inbound_frame
                (match queue (Dispatch.api sys) with
                 | [] => Dispatch.api sys
                 | lxm :: rest =>
                     call (HandleOutbound lxm) (set_queue rest (Dispatch.api sys))
                 end) a b) as [-> ->].
    by destruct (queue (Dispatch.api sys)).
Qed.

(** [_message_received] touches receipts and log only. *)
Lemma message_received_outbound_frame m s w :
  let s' := (_message_received m s w).1.1 in
  delivery_callbacks s' = delivery_callbacks s
  /\ queue s' = queue s /\ trace s' = trace s /\ local s' = local s.
Proof.
  destruct (decide (hexrep (hash m) ∈ receipts s)) as [Hin|Hnin].
  - by rewrite message_received_duplicate.
  - by rewrite message_received_new.
Qed.

Lemma outbound_invariant_ext local_hash brought
    (sys sys' : Dispatch.System (Identity := Identity) (World := Ws.Queues)) :
  queue (Dispatch.api sys') = queue (Dispatch.api sys) ->
  trace (Dispatch.api sys') = trace (Dispatch.api sys) ->
  local (Dispatch.api sys') = local (Dispatch.api sys) ->
  Dispatch.waiting sys' = Dispatch.waiting sys ->
  Dispatch.outbound_invariant local_hash brought sys ->
  Dispatch.outbound_invariant local_hash brought sys'.
Proof.
  intros Hq Ht Hl Hw. unfold Dispatch.outbound_invariant.
  by rewrite Hq, Ht, Hl, Hw.
Qed.

(** Taking the oldest event off a queue keeps the invariant. *)
Lemma pop_invariant local_hash st ws rest sent' :
  server_invariant local_hash st ->
  server_invariant local_hash
    {| Server.system := Server.system st;
       Server.queues := <[ws := rest]> (Server.queues st);
       Server.opened := Server.opened st; Server.sent := sent' |}.
Proof.
  intros (Hcbs & Hnd & Hqs & Hrnd & Hrlen & brought & Hout).
  unfold server_invariant. simpl. split_and!; try done; [|by exists brought].
  intros k Hk. destruct (decide (k = ws)) as [->|Hne].
  - rewrite lookup_insert_eq. by eexists.
  - rewrite lookup_insert_ne by done. by apply Hqs.
Qed.

(** What [finally_remove] does to a connection that is running: it is
    taken from the running connections, its callback from the list. *)
Lemma finally_remove_running ws st :
  ws ∈ Server.opened st ->
  exists i,
    Server.opened st !! i = Some ws
    /\ Server.finally_remove ws st
       = {| Server.system :=
              {| Dispatch.api :=
                   set_delivery_callbacks
                     (delete i (delivery_callbacks (Dispatch.api (Server.system st))))
                     (Dispatch.api (Server.system st));
                 Dispatch.waiting := Dispatch.waiting (Server.system st) |};
            Server.queues := Server.queues st;
            Server.opened := delete i (Server.opened st);
            Server.sent := Server.sent st |}.
Proof.
  intros Hin. unfold Server.finally_remove.
  destruct (list_find (fun k => k = ws) (Server.opened st)) as [[i x]|] eqn:Hfind.
  - apply list_find_Some in Hfind as (Hi & -> & _). by exists i.
  - apply list_find_None in Hfind.
    rewrite Forall_forall in Hfind. by destruct (Hfind ws Hin).
Qed.

Lemma not_elem_of_delete_NoDup (l : list nat) i x :
  NoDup l -> l !! i = Some x -> x ∉ delete i l.
Proof.
  intros Hnd Hi. rewrite delete_take_drop.
  rewrite <- (take_drop_middle l i x Hi) in Hnd.
  apply NoDup_app in Hnd as (_ & Hdisj & Hnd).
  apply NoDup_cons in Hnd as [Hx _].
  intros [Hin|Hin]%elem_of_app; [|done].
  apply (Hdisj x Hin). set_solver.
Qed.

Lemma finally_remove_invariant local_hash st ws :
  server_invariant local_hash st ->
  server_invariant local_hash (Server.finally_remove ws st).
Proof.
  intros Hinv. unfold Server.finally_remove.
  destruct (list_find (fun k => k = ws) (Server.opened st)) as [[i x]|]; [|done].
  destruct Hinv as (Hcbs & Hnd & Hqs & Hrnd & Hrlen & brought & Hout).
  unfold server_invariant. simpl. split_and!; try done.
  - by rewrite Hcbs, list_fmap_delete.
  - eapply sublist_NoDup; [done|apply sublist_delete].
  - intros k Hk. apply Hqs. by eapply list_elem_of_delete_inv.
  - exists brought. by eapply outbound_invariant_ext.
Qed.

Lemma server_step_invariant local_hash st ev :
  server_invariant local_hash st ->
  server_invariant local_hash (Server.step TRUNCATED_HASHLENGTH recall st ev).
Proof.
  intros (Hcbs & Hnd & Hqs & Hrnd & Hrlen & brought & Hout).
  destruct ev as [|m|ev|ws].
  - (* Connect *)
    simpl. unfold server_invariant. simpl.
    assert (fresh (dom (Server.queues st)) ∉ Server.opened st) as Hfresh.
    { intros Hin. apply Hqs in Hin. apply elem_of_dom in Hin.
      by apply is_fresh in Hin. }
    split_and!.
    + by rewrite Hcbs, fmap_app.
    + apply NoDup_app. split_and!; [done|set_solver|apply NoDup_singleton].
    + intros ws [Hin| ->%list_elem_of_singleton]%elem_of_app.
      * rewrite lookup_insert_ne; [by apply Hqs|]. intros <-. done.
      * rewrite lookup_insert_eq. by eexists.
    + done.
    + done.
    + exists brought. by eapply outbound_invariant_ext.
  - (* Inbound *)
    simpl.
    pose proof (message_received_outbound_frame m (Dispatch.api (Server.system st))
                  (Server.queues st)) as (Hc' & Hq' & Ht' & Hl').
    pose proof (message_received_receipts m (Dispatch.api (Server.system st))
                  (Server.queues st)) as Hr'.
    pose proof (call_all_message_callbacks) as Hall.
    destruct (decide (hexrep (hash m) ∈ receipts (Dispatch.api (Server.system st))))
      as [Hin|Hnin].
    + rewrite message_received_duplicate by done.
      unfold server_invariant. simpl. split_and!; try done.
      exists brought. by eapply outbound_invariant_ext.
    + rewrite message_received_new in * by done. simpl in *.
      unfold server_invariant. simpl. split_and!; try done.
      * intros ws Hws. rewrite Hcbs.
        destruct (decode_utf8 (content m)) as [text|] eqn:Hdec.
        -- rewrite (for_callback_decoded m text) by done.
           destruct (Hall (namespace m text) (Server.opened st) (Server.queues st) Hnd)
             as (_ & Hthere & _).
           rewrite Hthere by done. by eexists.
        -- destruct (Server.opened st) as [|ws0 rest]; [set_solver|].
           simpl. rewrite Hdec. simpl. by apply Hqs.
      * by apply append_receipt_NoDup.
      * by apply append_receipt_length.
      * exists brought. by eapply outbound_invariant_ext.
  - (* Outbound *)
    simpl.
    destruct (dispatch_step_inbound_frame (Server.system st) ev) as [Hc' Hr'].
    unfold server_invariant. simpl. rewrite Hc', Hr'. split_and!; try done.
    eexists. by apply (step_invariant TRUNCATED_HASHLENGTH recall local_hash brought _ ev).
  - (* Forward *)
    assert (server_invariant local_hash st) as Hinv.
    { unfold server_invariant. split_and!; try done. by exists brought. }
    simpl. destruct (decide (ws ∈ Server.opened st)) as [Hws|Hws]; [|done].
    unfold Server.websocket_loop.
    destruct (Server.queues st !! ws) as [[|e rest]|] eqn:Hq; simpl.
    + by destruct st.
    + destruct client_there.
      * by apply pop_invariant.
      * apply finally_remove_invariant. by apply pop_invariant.
    + by destruct st.
Qed.

Lemma server_boot_invariant local_hash file immediately t t' :
  server_invariant local_hash
    (Server.boot (Identity := Identity) local_hash file immediately t t').
Proof.
  unfold server_invariant, Server.boot. simpl.
  destruct (announce_inbound_frame
              (__init__ (Identity := Identity) (World := Ws.Queues)
                 local_hash file immediately) t t') as [-> ->].
  simpl. split_and!; [done|apply NoDup_nil_2|set_solver|apply NoDup_nil_2|lia|].
  exists []. apply boot_invariant.
Qed.


Lemma server_run_invariant local_hash (evs : list Server.Event) : forall st,
  server_invariant local_hash st ->
  server_invariant local_hash (Server.run TRUNCATED_HASHLENGTH recall st evs).
Proof.
  induction evs as [|ev evs IH]; intros st Hst; [done|].
  simpl. apply IH. by apply server_step_invariant.
Qed.

End ServerFacts.

Section Streams.

Context {Identity : Type}.
Variable TRUNCATED_HASHLENGTH : Z.
Variable recall : bytes -> option Identity.

Implicit Types st : Server.State (Identity := Identity).
Implicit Types m : LXMessageIn.



(** Producers and the dispatcher do not touch what a connection is
    given. *)
Lemma stream_outbound ws st ev :
  stream ws (Server.step TRUNCATED_HASHLENGTH recall st (Server.Outbound ev))
  = stream ws st.
Proof. reflexivity. Qed.




(** X18.  A client that went away is noticed only when an event is sent
    to it.  While its queue is empty the iteration times out and nothing
    changes, the callback staying registered.  With an event on the queue,
    the send fails: the event is taken from the queue and is not sent, the
    connection is no longer among the running ones and its callback is out
    of the list, the callbacks of the others staying in their order; and no
    message that arrives afterwards is put on its queue. *)
Theorem failed_send_ends_the_connection local_hash st ws :
  server_invariant local_hash st ->
  ws ∈ Server.opened st ->
  let gone := Server.step TRUNCATED_HASHLENGTH recall st (Server.Forward ws false) in
  (Server.queues st !! ws = Some [] -> gone = st)
  /\ (forall e rest,
        Server.queues st !! ws = Some (e :: rest) ->
        Server.sent gone = Server.sent st
        /\ Server.queues gone = <[ws := rest]> (Server.queues st)
        /\ (ws ∉ Server.opened gone)
        /\ Server.opened gone `sublist_of` Server.opened st
        /\ (forall k, k ∈ Server.opened st -> k ≠ ws -> k ∈ Server.opened gone)
        /\ delivery_callbacks (Dispatch.api (Server.system gone))
           = Ws.message_callback <$> Server.opened gone
        /\ forall m,
             Server.queues
               (Server.step TRUNCATED_HASHLENGTH recall gone (Server.Inbound m))
             !! ws = Some rest).
Proof.
  intros Hinv Hws gone. subst gone. split.
  - intros Hq. simpl. rewrite decide_True by done.
    unfold Server.websocket_loop. rewrite Hq. by destruct st.
  - intros e rest Hq.
    pose proof (server_step_invariant TRUNCATED_HASHLENGTH recall local_hash st
                  (Server.Forward ws false) Hinv) as Hinv1.
    destruct Hinv as (Hcbs & Hnd & _).
    simpl in *. rewrite decide_True in * by done.
    unfold Server.websocket_loop in *. rewrite Hq in *.
    destruct (finally_remove_running ws
                {| Server.system := Server.system st;
                   Server.queues := <[ws := rest]> (Server.queues st);
                   Server.opened := Server.opened st;
                   Server.sent := Server.sent st |} Hws) as (i & Hi & Heq).
    rewrite Heq in *. simpl in *.
    destruct Hinv1 as (Hcbs1 & Hnd1 & _). simpl in *.
    assert (ws ∉ delete i (Server.opened st)) as Hout
      by (by apply not_elem_of_delete_NoDup).
    split_and!; try done.
    + apply sublist_delete.
    + intros k Hk Hne. rewrite delete_take_drop.
      rewrite <- (take_drop_middle _ i ws Hi) in Hk. set_solver.
    + intros m.
      destruct (decide (hexrep (hash m)
                        ∈ receipts (Dispatch.api (Server.system st)))) as [Hin|Hnin].
      * rewrite message_received_duplicate by done. simpl.
        apply lookup_insert_eq.
      * rewrite message_received_new by done. simpl. rewrite Hcbs1.
        destruct (decode_utf8 (content m)) as [text|] eqn:Hdec.
        -- rewrite (for_callback_decoded m text) by done.
           destruct (call_all_message_callbacks (namespace m text)
                       (delete i (Server.opened st))
                       (<[ws := rest]> (Server.queues st)) Hnd1) as (_ & _ & Hnot).
           rewrite (Hnot ws Hout). apply lookup_insert_eq.
        -- destruct (delete i (Server.opened st)) as [|k0 ks]; simpl.
           ++ apply lookup_insert_eq.
           ++ rewrite Hdec. simpl. apply lookup_insert_eq.
Qed.

End Streams.

Lemma two_clients_invariant : server_invariant [x01; x02] two_clients.
Proof.
  apply server_run_invariant, server_boot_invariant.
Qed.


Lemma failed_send_ends_the_connection_witness :
  let st := Server.run 128 every_identity two_clients [Server.Inbound hello] in
  let gone := Server.step 128 every_identity st (Server.Forward 0 false) in
  Server.step 128 every_identity two_clients (Server.Forward 0 false) = two_clients
  /\ Server.sent gone = []
  /\ Server.opened gone = [1%nat]
  /\ Server.queues
       (Server.step 128 every_identity gone (Server.Inbound (numbered 7)))
     !! 0%nat = Some [].
Proof.
  intros st gone.
  assert (server_invariant [x01; x02] st) as Hinv.
  { apply server_run_invariant, two_clients_invariant. }
  assert (0%nat ∈ Server.opened st) as Hin.
  { replace (Server.opened st) with [0%nat; 1%nat] by (vm_compute; reflexivity).
    apply list_elem_of_here. }
  assert (0%nat ∈ Server.opened two_clients) as Hin0.
  { replace (Server.opened two_clients) with [0%nat; 1%nat] by (vm_compute; reflexivity).
    apply list_elem_of_here. }
  destruct (failed_send_ends_the_connection 128 every_identity [x01; x02]
              two_clients 0%nat two_clients_invariant Hin0) as [Hidle _].
  destruct (failed_send_ends_the_connection 128 every_identity [x01; x02]
              st 0%nat Hinv Hin) as [_ Hfail].
  destruct (Hfail hello_event []) as (Hsent & _ & _ & _ & _ & _ & Hlater).
  { vm_compute. reflexivity. }
  split_and!.
  - apply Hidle. vm_compute. reflexivity.
  - etrans; [exact Hsent|vm_compute; reflexivity].
  - vm_compute. reflexivity.
  - apply (Hlater (numbered 7)).
Defined.


(** ** Edge cases of [_message_received] *)

Section InboundEdges.

Context {Identity World : Type}.

Implicit Types s : LXMFAPI (Identity := Identity) (World := World).
Implicit Types w : World.
Implicit Types m : LXMessageIn.

(** X16.  With no function registered, a message with a new receipt id is
    recorded and nothing else happens: no exception, even when the content
    is not UTF-8, since the content is decoded inside the loop only.  The
    message is then a duplicate for whoever registers later. *)
Theorem message_without_subscribers_is_only_recorded s w m :
  delivery_callbacks s = [] ->
  hexrep (hash m) ∉ receipts s ->
  let result := _message_received m s w in
  result.2 = None
  /\ result.1.2 = w
  /\ hexrep (hash m) ∈ receipts result.1.1
  /\ forall (f : Callback) w',
       _message_received m (received f result.1.1) w'
       = (RNS_log (receipt_log m) LOG_INFO (received f result.1.1), w', None).
Proof.
  intros Hcbs Hnew result.
  assert (hexrep (hash m) ∈ receipts result.1.1) as Hin.
  { subst result. rewrite message_received_new_receipts by done.
    apply append_receipt_elem. }
  subst result. split_and!; [| |done|].
  - rewrite message_received_new by done. simpl. by rewrite Hcbs.
  - rewrite message_received_new by done. simpl. by rewrite Hcbs.
  - intros f w'. by apply message_received_duplicate.
Qed.

(** X17.  With at least one function registered, a message with a new
    receipt id whose content is not UTF-8 ends the handler with
    [UnicodeDecodeError] before any function is called: the world of the
    callbacks is untouched, the receipt id is recorded all the same. *)
Theorem undecodable_message_raises_before_any_callback s w m :
  delivery_callbacks s ≠ [] ->
  hexrep (hash m) ∉ receipts s ->
  decode_utf8 (content m) = None ->
  let result := _message_received m s w in
  result.2 = Some UnicodeDecodeError
  /\ result.1.2 = w
  /\ hexrep (hash m) ∈ receipts result.1.1.
Proof.
  intros Hcbs Hnew Hdec result. subst result.
  split_and!.
  - rewrite message_received_new by done. simpl.
    destruct (delivery_callbacks s) as [|cb rest]; [done|].
    by rewrite for_callback_undecodable.
  - rewrite message_received_new by done. simpl.
    destruct (delivery_callbacks s) as [|cb rest]; [done|].
    by rewrite for_callback_undecodable.
  - rewrite message_received_new_receipts by done. apply append_receipt_elem.
Qed.

End InboundEdges.

Lemma message_without_subscribers_is_only_recorded_witness :
  let result := _message_received garbled (api_with []) one_connection in
  result.2 = None
  /\ (_message_received garbled
        (received (Ws.message_callback 0) result.1.1) one_connection).1.2
     = one_connection.
Proof.
  intros result.
  destruct (message_without_subscribers_is_only_recorded
              (api_with []) one_connection garbled) as (He & _ & _ & Hdup).
  - reflexivity.
  - vm_compute. intros H. inversion H.
  - split; [exact He|].
    apply (f_equal (fun r => r.1.2) (Hdup (Ws.message_callback 0) one_connection)).
Defined.

Lemma undecodable_message_raises_before_any_callback_witness :
  let result := _message_received garbled
                  (api_with [Ws.message_callback 0; Ws.message_callback 1])
                  two_connections in
  result.2 = Some UnicodeDecodeError /\ result.1.2 = two_connections.
Proof.
  intros result.
  destruct (undecodable_message_raises_before_any_callback
              (api_with [Ws.message_callback 0; Ws.message_callback 1])
              two_connections garbled) as (He & Hw & _).
  - vm_compute. discriminate.
  - vm_compute. intros H. inversion H.
  - vm_compute. reflexivity.
  - split; [exact He|exact Hw].
Defined.
